(** * soulforged-go: the map-data server (server.go)

    A shallow embedding of [server.go]: the process-wide cache of map
    locations, the HTTP handler that fills it on a cold read, the periodic
    refresher, and start-up.  The Go runtime pieces the program leans on
    (slices over shared backing arrays, [sync.Mutex], [defer],
    [context.WithTimeout], [net/http]'s response writer, [encoding/json],
    and the MongoDB driver's cursor) are modelled next to it, each in a
    module of its own. *)

From Stdlib Require Import ZArith Lia Ascii.
From Stdlib Require Import Floats.PrimFloat Floats.FloatOps Floats.SpecFloat.
From stdpp Require Import list strings gmap.

Local Open Scope string_scope.
Local Open Scope list_scope.
Local Open Scope nat_scope.

(** ** Data (server.go, lines 18-29) *)

(** Go's [float64] is IEEE binary64, which is what the kernel's floats are. *)
Definition float64 : Set := PrimFloat.float.

(** [type Coordinates struct { X float64 `json:"x"`; Y float64 `json:"y"` }] *)
Record Coordinates := { X : float64; Y : float64 }.

(** [type MapLocation struct { ID string `json:"id" bson:"_id"`;
      Location string `json:"location"`; XY Coordinates `json:"xy"` }] *)
Record MapLocation := { ID : string; Location : string; XY : Coordinates }.

(** The zero value of [MapLocation], what a freshly allocated element holds. *)
Definition zeroLocation : MapLocation :=
  {| ID := ""; Location := ""; XY := {| X := 0%float; Y := 0%float |} |}.

(** ** Go slices

    A slice is a header (pointer, length, capacity) into a backing array
    that lives on the heap.  Assigning a slice copies the header only, so
    [cache.data = data] leaves both variables pointing at one array. *)
Module GoSlice.

Abbreviation addr := nat.

(** [base = None] is the nil pointer of a nil slice. *)
Record slice := { base : option addr; len : nat; cap : nat }.

Definition nil : slice := {| base := None; len := 0; cap := 0 |}.

(** The heap, as far as slices go: backing arrays by address. *)
Abbreviation arrays A := (list (list A)).

Section Elem.
Context {A : Type}.

Definition array (h : arrays A) (s : slice) : list A :=
  match base s with
  | Some a => default [] (h !! a)
  | None => []
  end.

(** The elements [s[0]], ..., [s[len-1]] a reader of [s] sees. *)
Definition view (h : arrays A) (s : slice) : list A :=
  take (len s) (array h s).

(** Writing [x] to element [i] of the array of [s]: the assignment
    [s[i] = x] for [i < len s], and the write [append] makes at [len s]
    when there is capacity to spare. *)
Definition store (h : arrays A) (s : slice) (i : nat) (x : A) : arrays A :=
  match base s with
  | Some a => alter (fun arr => <[i := x]> arr) a h
  | None => h
  end.

(** [s[0:n]], for [n <= cap s] (Go panics beyond): same array. *)
Definition reslice (s : slice) (n : nat) : slice :=
  {| base := base s; len := n; cap := cap s |}.

(** Capacity after growing a full slice by one element: doubling up
    to 256 elements, a quarter more (plus 192) from there on.  The
    runtime may round the result up further to an allocation size
    class; nothing below depends on the exact figure. *)
Definition growcap (c : nat) : nat :=
  if c =? 0 then 1 else if c <? 256 then 2 * c else c + (c + 768) / 4.

(** [append(s, x)]: in place while capacity lasts, otherwise into a
    fresh, larger array that receives a copy of [s]. [pad] fills the
    spare capacity of the fresh array. *)
Definition append (pad : A) (h : arrays A) (s : slice) (x : A) : arrays A * slice :=
  if len s <? cap s then
    (store h s (len s) x,
     {| base := base s; len := S (len s); cap := cap s |})
  else
    let c := growcap (cap s) in
    (h ++ [view h s ++ x :: replicate (c - S (len s)) pad],
     {| base := Some (length h); len := S (len s); cap := c |}).
End Elem.
End GoSlice.

(** ** strconv: the shortest decimal of a float64

    [strconv.AppendFloat(b, f, fmt, -1, 64)] prints the shortest decimal
    that reads back as [f], and among those the one nearest to [f].  A
    positive finite float is [m * 2^e]; every quantity below is an integer
    and comparisons cross-multiply, so nothing is rounded. *)
Module Strconv.
Local Open Scope Z_scope.

(** [D * 10^p ?= N * 2^s] *)
Definition cmp_scaled (D p N s : Z) : comparison :=
  D * 10 ^ Z.max p 0 * 2 ^ Z.max (- s) 0 ?= N * 2 ^ Z.max s 0 * 10 ^ Z.max (- p) 0.

(** floor (N * 2^s / 10^p) *)
Definition floor_scaled (N s p : Z) : Z :=
  (N * 2 ^ Z.max s 0 * 10 ^ Z.max (- p) 0) / (2 ^ Z.max (- s) 0 * 10 ^ Z.max p 0).

(** The least [k] from [k] on with [N * 2^s < 10^k]. *)
Fixpoint decimal_exponent (fuel : nat) (k N s : Z) : Z :=
  match fuel with
  | O => k
  | S fuel' =>
      match cmp_scaled 1 k N s with
      | Gt => k
      | _ => decimal_exponent fuel' (k + 1) N s
      end
  end.

(** The [n]-digit decimal nearest to [m * 2^e] among those that read
    back as it, if there is one; [(D, p)] stands for [D * 10^p].  In
    units of [2^(e-2)] the float is [4m] and the floats that round to
    it lie between [4m - 2] (or [4m - 1], just above a power of two)
    and [4m + 2], ends included when [m] is even. *)
Definition candidate (m e k n : Z) : option (Z * Z) :=
  let s := e - 2 in
  let V := 4 * m in
  let U := V + 2 in
  let L := if (m =? 2 ^ 52) && (-1074 <? e) then V - 1 else V - 2 in
  let inclusive := Z.even m in
  let p := k - n in
  let lo := floor_scaled V s p in
  let hi := lo + 1 in
  let lo_ok := match cmp_scaled lo p L s with Gt => true | Eq => inclusive | Lt => false end in
  let hi_ok := match cmp_scaled hi p U s with Lt => true | Eq => inclusive | Gt => false end in
  match cmp_scaled lo p V s with
  | Eq => Some (lo, p)
  | _ =>
      match lo_ok, hi_ok with
      | true, true =>
          match cmp_scaled (lo + hi) p (2 * V) s with
          | Gt => Some (lo, p)
          | Lt => Some (hi, p)
          | Eq => Some (if Z.even lo then lo else hi, p)
          end
      | true, false => Some (lo, p)
      | false, true => Some (hi, p)
      | false, false => None
      end
  end.

(** Try 1, 2, ... digits; seventeen always identify a float64. *)
Fixpoint shortest_from (fuel : nat) (m e k n : Z) : Z * Z :=
  match fuel with
  | O => (floor_scaled (4 * m) (e - 2) (k - n), k - n)
  | S fuel' =>
      match candidate m e k n with
      | Some r => r
      | None => shortest_from fuel' m e k (n + 1)
      end
  end.

Fixpoint strip_zeros (fuel : nat) (D p : Z) : Z * Z :=
  match fuel with
  | O => (D, p)
  | S fuel' =>
      if (0 <? D) && (D mod 10 =? 0) then strip_zeros fuel' (D / 10) (p + 1) else (D, p)
  end.

Fixpoint digits_of (fuel : nat) (D : Z) (acc : list Z) : list Z :=
  match fuel with
  | O => acc
  | S fuel' => if D <? 10 then D :: acc else digits_of fuel' (D / 10) (D mod 10 :: acc)
  end.

(** Digits [d1 .. dn] and decimal point [dp] of [m * 2^e], which then
    reads [0.d1..dn * 10^dp]. *)
Definition shortest (m e : Z) : list Z * Z :=
  let k := decimal_exponent 40 (e * 30103 / 100000 - 2) (4 * m) (e - 2) in
  let '(D, p) := shortest_from 17 m e k 1 in
  let '(D, p) := strip_zeros 20 D p in
  let ds := digits_of 20 D [] in
  (ds, Z.of_nat (length ds) + p).

Definition digit_char (d : Z) : ascii := ascii_of_N (Z.to_N (48 + d)).

Definition digit_at (ds : list Z) (i : Z) : ascii :=
  if i <? 0 then digit_char 0 else digit_char (nth (Z.to_nat i) ds 0).

Fixpoint chars_from (ds : list Z) (from : Z) (n : nat) : string :=
  match n with
  | O => ""
  | S n' => String (digit_at ds from) (chars_from ds (from + 1) n')
  end.

Fixpoint decimal (fuel : nat) (n : Z) (acc : string) : string :=
  match fuel with
  | O => acc
  | S fuel' =>
      let acc' := String (digit_char (n mod 10)) acc in
      if n <? 10 then acc' else decimal fuel' (n / 10) acc'
  end.

(** [%f]: all the digits, no exponent. *)
Definition fmtF (ds : list Z) (dp : Z) : string :=
  let int_part := if 0 <? dp then chars_from ds 0 (Z.to_nat dp) else "0" in
  let prec := Z.max (Z.of_nat (length ds) - dp) 0 in
  if 0 <? prec then int_part +:+ "." +:+ chars_from ds dp (Z.to_nat prec) else int_part.

(** [%e]: d.ddde±dd, the exponent on two digits at least. *)
Definition fmtE (ds : list Z) (dp : Z) : string :=
  let first := String (digit_at ds 0) "" in
  let mant :=
    if 1 <? Z.of_nat (length ds)
    then first +:+ "." +:+ chars_from ds 1 (length ds - 1)
    else first in
  let ex := dp - 1 in
  mant +:+ "e" +:+ (if ex <? 0 then "-" else "+")
       +:+ (if Z.abs ex <? 10 then "0" else "") +:+ decimal 5 (Z.abs ex) "".
End Strconv.

(** ** encoding/json, for [[]MapLocation]

    What [json.NewEncoder(w).Encode(cache.data)] writes: struct fields in
    declaration order under their [json] tags, strings quoted with the
    encoder's default HTML-safe escaping, floats as [strconv] prints them.
    A float that is NaN or infinite makes the whole encoding fail. *)
Module JSON.

Definition dquote : ascii := ascii_of_N 34.
Definition backslash : ascii := ascii_of_N 92.

Definition hex (n : N) : ascii :=
  ascii_of_N (if (n <? 10)%N then 48 + n else 87 + n).

(** [htmlSafeSet]: printable ASCII but for the quote, the backslash and
    the three HTML characters. *)
Definition htmlSafe (b : N) : bool :=
  ((32 <=? b) && (b <? 128) &&
   negb (b =? 34) && negb (b =? 38) && negb (b =? 60) && negb (b =? 62) && negb (b =? 92))%N.

Definition escape (b : N) : string :=
  String backslash
    (if ((b =? 92) || (b =? 34))%N then String (ascii_of_N b) ""
     else if (b =? 8)%N then "b"
     else if (b =? 12)%N then "f"
     else if (b =? 10)%N then "n"
     else if (b =? 13)%N then "r"
     else if (b =? 9)%N then "t"
     else "u00" +:+ String (hex (b / 16)) (String (hex (b mod 16)) "")).

Definition between (lo hi b : N) : bool := ((lo <=? b) && (b <=? hi))%N.

Definition byte_at (s : string) (i : nat) : N :=
  match String.get i s with Some c => N_of_ascii c | None => 0%N end.

(** [utf8.DecodeRuneInString] on a string that starts with the byte
    [b >= 0x80] and goes on with [rest]: the length of the character
    there, or [None] where the bytes are not valid UTF-8. *)
Definition rune_size (b : N) (rest : string) : option nat :=
  let b1 := byte_at rest 0 in
  let b2 := byte_at rest 1 in
  let b3 := byte_at rest 2 in
  let second :=
    if (b =? 224)%N then between 160 191 b1
    else if (b =? 237)%N then between 128 159 b1
    else if (b =? 240)%N then between 144 191 b1
    else if (b =? 244)%N then between 128 143 b1
    else between 128 191 b1 in
  if between 194 223 b then (if second then Some 2 else None)
  else if between 224 239 b then (if second && between 128 191 b2 then Some 3 else None)
  else if between 240 244 b then
    (if second && between 128 191 b2 && between 128 191 b3 then Some 4 else None)
  else None.

(** Bytes of the character being copied, or dropped, that are still to come. *)
Inductive pending := Copy (n : nat) | Drop (n : nat).

(** The loop of [appendString], a byte at a time. *)
Fixpoint appendString (p : pending) (s : string) : string :=
  match s with
  | EmptyString => ""
  | String c rest =>
      match p with
      | Copy (S n) => String c (appendString (Copy n) rest)
      | Drop (S n) => appendString (Drop n) rest
      | Copy 0 | Drop 0 =>
          let b := N_of_ascii c in
          if (b <? 128)%N then
            (if htmlSafe b then String c "" else escape b) +:+ appendString (Copy 0) rest
          else
            match rune_size b rest with
            | None => String backslash "ufffd" +:+ appendString (Copy 0) rest
            | Some size =>
                (* U+2028 and U+2029 are E2 80 A8 and E2 80 A9 *)
                if ((b =? 226) && (byte_at rest 0 =? 128) && between 168 169 (byte_at rest 1))%N
                then String backslash "u202" +:+ String (hex (byte_at rest 1 mod 16)) ""
                       +:+ appendString (Drop (size - 1)) rest
                else String c (appendString (Copy (size - 1)) rest)
            end
      end
  end.

Definition quote (s : string) : string :=
  String dquote (appendString (Copy 0) s) +:+ String dquote "".

(** [floatEncoder]: NaN and the infinities are an [UnsupportedValueError];
    otherwise [%f], or [%e] below 1e-6 and from 1e21 on, with the
    exponent's leading zero dropped (e-07 becomes e-7). *)
Definition float (f : float64) : option string :=
  match Prim2SF f with
  | S754_nan | S754_infinity _ => None
  | S754_zero neg => Some (if neg then "-0" else "0")
  | S754_finite neg m e =>
      let '(ds, dp) := Strconv.shortest (Zpos m) e in
      let fits := (PrimFloat.leb 0x1.0c6f7a0b5ed8dp-20 (abs f) && PrimFloat.ltb (abs f) 1e21)%float in
      let txt :=
        if fits then Strconv.fmtF ds dp
        else
          let b := Strconv.fmtE ds dp in
          let n := String.length b in
          if (4 <=? n) && (byte_at b (n - 4) =? 101)%N
             && ((byte_at b (n - 3) =? 45) || (byte_at b (n - 3) =? 43))%N
             && (byte_at b (n - 2) =? 48)%N
          then String.substring 0 (n - 2) b +:+ String.substring (n - 1) 1 b
          else b in
      Some (if neg then "-" +:+ txt else txt)
  end.

Definition key (name : string) : string := String dquote name +:+ String dquote ":".

Definition coordinates (c : Coordinates) : option string :=
  x ← float (X c);
  y ← float (Y c);
  Some ("{" +:+ key "x" +:+ x +:+ "," +:+ key "y" +:+ y +:+ "}").

Definition mapLocation (l : MapLocation) : option string :=
  xy ← coordinates (XY l);
  Some ("{" +:+ key "id" +:+ quote (ID l) +:+ ","
            +:+ key "location" +:+ quote (Location l) +:+ ","
            +:+ key "xy" +:+ xy +:+ "}").

Fixpoint elements (ls : list MapLocation) : option string :=
  match ls with
  | [] => Some ""
  | [l] => mapLocation l
  | l :: rest =>
      o ← mapLocation l;
      os ← elements rest;
      Some (o +:+ "," +:+ os)
  end.

(** [json.Marshal] of a slice: [null] for the nil slice, an array otherwise. *)
Definition Marshal (is_nil : bool) (ls : list MapLocation) : option string :=
  if is_nil then Some "null"
  else os ← elements ls; Some ("[" +:+ os +:+ "]").
End JSON.

Arguments JSON.Marshal : simpl never.

(** ** context *)
Module Ctx.

(** The contexts the program builds: [context.Background()], the
    request's [r.Context()], and [context.WithTimeout(parent, d)], whose
    timer is released by the [cancel] function returned with it. *)
Inductive context :=
| Background
| OfRequest
| WithTimeout (parent : context) (seconds : Z) (timer : nat).

(** The time after which a call made under the context is abandoned;
    [None] when nothing bounds it. *)
Fixpoint deadline (c : context) : option Z :=
  match c with
  | Background | OfRequest => None
  | WithTimeout parent d _ =>
      Some (match deadline parent with Some d' => Z.min d d' | None => d end)
  end.
End Ctx.

(** ** net/http: the response writer *)
Module HTTP.

(** [header] is the map [w.Header()] hands out; [status] and [sent] are
    the status line and the header as they went out to the client, which
    happens once, at the first [WriteHeader] or [Write].  Headers the
    server adds by itself ([Date], [Content-Length]) are left out, and the
    connection takes whatever is written to it. *)
Record ResponseWriter := {
  header : gmap string string;
  status : option nat;
  sent : gmap string string;
  body : string;
}.

Definition fresh : ResponseWriter :=
  {| header := ∅; status := None; sent := ∅; body := "" |}.

Definition on_header (f : gmap string string → gmap string string)
    (w : ResponseWriter) : ResponseWriter :=
  {| header := f (header w); status := status w; sent := sent w; body := body w |}.

Definition Set_ (k v : string) : ResponseWriter → ResponseWriter := on_header <[k := v]>.
Definition Del (k : string) : ResponseWriter → ResponseWriter := on_header (delete k).

(** A second [WriteHeader] is ignored (the server logs it as superfluous). *)
Definition WriteHeader (code : nat) (w : ResponseWriter) : ResponseWriter :=
  match status w with
  | Some _ => w
  | None => {| header := header w; status := Some code; sent := header w; body := body w |}
  end.

(** [w.Write(b)] sends status 200 first if none went out yet. *)
Definition Write (b : string) (w : ResponseWriter) : ResponseWriter :=
  let w := WriteHeader 200 w in
  {| header := header w; status := status w; sent := sent w; body := body w +:+ b |}.

Definition newline : string := String (ascii_of_N 10) "".

(** [http.Error(w, error, code)] *)
Definition Error (w : ResponseWriter) (error : string) (code : nat) : ResponseWriter :=
  let w := Del "Content-Length" w in
  let w := Set_ "Content-Type" "text/plain; charset=utf-8" w in
  let w := Set_ "X-Content-Type-Options" "nosniff" w in
  let w := WriteHeader code w in
  Write (error +:+ newline) w.

Definition StatusInternalServerError : nat := 500.
End HTTP.

(** ** The MongoDB driver, as far as the program calls it

    [collection.Find] and [cursor.All] of go.mongodb.org/mongo-driver
    (mongo/cursor.go), and [bson.Unmarshal] into a [MapLocation].  [All]
    is documented to overwrite the slice its argument points to; it does
    so element by element, starting from the slice as it finds it, and
    [bson] decodes each document into its element in place, field by
    field. *)
Module Driver.
Import GoSlice.

(** An element of the embedded document [xy], by the field its key names
    ([bson:"x"], [bson:"y"]) and what the float decoder makes of its
    value: [Some f] for a value that decodes to [f], [None] for one it
    rejects (a string, say).  A key that names no field is skipped. *)
Inductive Coord :=
| Cx (v : option float64)
| Cy (v : option float64)
| COther.

(** An element of a document of the collection, in the same way:
    [bson:"_id"], [bson:"location"] and [bson:"xy"], whose value is an
    embedded document or something the struct decoder rejects. *)
Inductive Element :=
| Id (v : option string)
| Loc (v : option string)
| Xy (v : option (list Coord))
| Other.

(** A document as the cursor yields it: its elements, in their order.
    (Null values, which zero the field they name, are left out.) *)
Inductive Doc := Document (elements : list Element).

(** The struct decoder on [Coordinates]: the value is not zeroed first;
    the elements are decoded one after the other, each into its field,
    and the first that fails ends the decoding with what was written so
    far left in place.  Returns the value and whether it failed. *)
Fixpoint decodeCoordinates (es : list Coord) (c : Coordinates) : Coordinates * bool :=
  match es with
  | [] => (c, false)
  | e :: es' =>
      match e with
      | Cx (Some x) => decodeCoordinates es' {| X := x; Y := Y c |}
      | Cy (Some y) => decodeCoordinates es' {| X := X c; Y := y |}
      | COther => decodeCoordinates es' c
      | Cx None | Cy None => (c, true)
      end
  end.

(** The struct decoder on [MapLocation]; [xy] is decoded into the field
    [XY] as it stands. *)
Fixpoint decodeElements (es : list Element) (l : MapLocation) : MapLocation * bool :=
  match es with
  | [] => (l, false)
  | e :: es' =>
      match e with
      | Id (Some s) =>
          decodeElements es' {| ID := s; Location := Location l; XY := XY l |}
      | Loc (Some s) =>
          decodeElements es' {| ID := ID l; Location := s; XY := XY l |}
      | Xy (Some cs) =>
          let '(c, err) := decodeCoordinates cs (XY l) in
          let l := {| ID := ID l; Location := Location l; XY := c |} in
          if err then (l, true) else decodeElements es' l
      | Other => decodeElements es' l
      | Id None | Loc None | Xy None => (l, true)
      end
  end.

(** [bson.UnmarshalWithRegistry(registry, doc, currElem)]: what
    [*currElem] holds afterwards, and whether decoding failed. *)
Definition Unmarshal (doc : Doc) (currElem : MapLocation) : MapLocation * bool :=
  let 'Document es := doc in decodeElements es currElem.

(** The document of a record: every field, in the order of the struct. *)
Definition Good (l : MapLocation) : Doc :=
  Document [Id (Some (ID l)); Loc (Some (Location l));
            Xy (Some [Cx (Some (X (XY l))); Cy (Some (Y (XY l)))])].

(** A document whose first element already fails to decode: nothing of
    it is written. *)
Definition Bad : Doc := Document [Id None].

(** What [collection.Find(ctx, bson.D{})] comes back with: an error, or
    a cursor over the documents of the collection. *)
Inductive FindResult := FindErr | Cursor (docs : list Doc).

(** The calls the program makes, each with the context it passes. *)
Inductive Call :=
| CallFind (c : Ctx.context)
| CallAll (c : Ctx.context)
| CallClose (c : Ctx.context).

(** The cursor's [addFromBatch], the loop inside [All]: each document is
    decoded into the element [sliceVal[index]] of the slice it was handed,
    in place; only when the slice is full ([sliceVal.Len() == index]) is a
    zero element appended first, and the slice then stretched to its
    capacity.  It stops at the first document that does not decode, with
    what that document wrote left in its element.  ([sliceVal.Index(index)]
    is always there once room has been made; the zero element stands in
    for it only where the slice is not sound.) *)
Fixpoint addFromBatch (h : arrays MapLocation) (sliceVal : slice) (index : nat) (docs : list Doc)
  : arrays MapLocation * slice * nat * bool :=
  match docs with
  | [] => (h, sliceVal, index, false)
  | doc :: docs' =>
      let '(h, sliceVal) :=
        if len sliceVal =? index then
          let '(h', s') := append zeroLocation h sliceVal zeroLocation in
          (h', reslice s' (cap s'))
        else (h, sliceVal) in
      let currElem := default zeroLocation (array h sliceVal !! index) in
      let '(l, err) := Unmarshal doc currElem in
      let h := store h sliceVal index l in
      if err then (h, sliceVal, index, true)
      else addFromBatch h sliceVal (S index) docs'
  end.

(** [cursor.All(ctx, &results)]: starts from the slice [results] points
    to and, when every document decoded, stores [sliceVal[0:index]] back
    through the pointer.  On failure it returns the error and leaves the
    variable as it was; what was decoded so far stays in the array.
    Returns the heap, the new value of [*results], and whether it failed.
    ([All] also closes the cursor on its way out, with a [Close] of its
    own under [context.Background()]; that call is the driver's, not the
    program's, and touches none of the program's variables.) *)
Definition Cursor_All (h : arrays MapLocation) (results : slice) (docs : list Doc)
  : arrays MapLocation * slice * bool :=
  let '(h', sliceVal, index, err) := addFromBatch h results 0 docs in
  if err then (h', results, true) else (h', reslice sliceVal index, false).
End Driver.

(** ** The program state (server.go, lines 31-39)

    The package-level variables, the heap their slices point into, and
    what the program has done to the outside world so far. *)

Import GoSlice.

Record World := {
  heap : arrays MapLocation;
  data : slice;                    (* var data []MapLocation *)
  cache_data : slice;              (* cache.data *)
  cacheMutex : bool;               (* true while the mutex is held *)
  timers : list nat;               (* timeout contexts whose cancel has not run *)
  next_timer : nat;
  calls : list Driver.Call;        (* calls made to the driver, latest first *)
  stdout : list string;            (* lines printed, latest first *)
}.

(** The state at process start: nothing fetched, both slices nil. *)
Definition start : World :=
  {| heap := []; data := nil; cache_data := nil; cacheMutex := false;
     timers := []; next_timer := 0; calls := []; stdout := [] |}.

Definition set_memory (h : arrays MapLocation) (d : slice) (s : World) : World :=
  {| heap := h; data := d; cache_data := cache_data s; cacheMutex := cacheMutex s;
     timers := timers s; next_timer := next_timer s; calls := calls s; stdout := stdout s |}.

Definition set_cache_data (c : slice) (s : World) : World :=
  {| heap := heap s; data := data s; cache_data := c; cacheMutex := cacheMutex s;
     timers := timers s; next_timer := next_timer s; calls := calls s; stdout := stdout s |}.

Definition set_cacheMutex (b : bool) (s : World) : World :=
  {| heap := heap s; data := data s; cache_data := cache_data s; cacheMutex := b;
     timers := timers s; next_timer := next_timer s; calls := calls s; stdout := stdout s |}.

Definition set_timers (ts : list nat) (n : nat) (s : World) : World :=
  {| heap := heap s; data := data s; cache_data := cache_data s; cacheMutex := cacheMutex s;
     timers := ts; next_timer := n; calls := calls s; stdout := stdout s |}.

Definition call (c : Driver.Call) (s : World) : World :=
  {| heap := heap s; data := data s; cache_data := cache_data s; cacheMutex := cacheMutex s;
     timers := timers s; next_timer := next_timer s; calls := c :: calls s; stdout := stdout s |}.

Definition Println (line : string) (s : World) : World :=
  {| heap := heap s; data := data s; cache_data := cache_data s; cacheMutex := cacheMutex s;
     timers := timers s; next_timer := next_timer s; calls := calls s; stdout := line :: stdout s |}.

(** The snapshot a reader of the cache sees: the records of [cache.data]. *)
Definition snapshot (s : World) : list MapLocation := view (heap s) (cache_data s).

(** [cacheMutex.Lock()] waits while the mutex is held; run on its own, a
    caller that finds it held waits for ever, which is [None]. *)
Definition Lock (s : World) : option World :=
  if cacheMutex s then None else Some (set_cacheMutex true s).

Definition Unlock (s : World) : World := set_cacheMutex false s.

(** [ctx, cancel := context.WithTimeout(parent, d)]: a context with a
    timer of its own; [cancel] is named by the timer. *)
Definition WithTimeout (parent : Ctx.context) (seconds : Z) (s : World)
  : Ctx.context * nat * World :=
  let t := next_timer s in
  (Ctx.WithTimeout parent seconds t, t, set_timers (t :: timers s) (S t) s).

Definition cancel (t : nat) (s : World) : World :=
  set_timers (filter (λ t', t' ≠ t) (timers s)) (next_timer s) s.

(** [defer]: calls put off until the surrounding function returns, the
    latest first. *)
Inductive Deferred :=
| DeferUnlock                      (* defer cacheMutex.Unlock() *)
| DeferCancel (t : nat)            (* defer cancel() *)
| DeferClose (c : Ctx.context)     (* defer cursor.Close(ctx) *)
| DeferStop.                       (* defer ticker.Stop() *)

Definition run_deferred (d : Deferred) (s : World) : World :=
  match d with
  | DeferUnlock => Unlock s
  | DeferCancel t => cancel t s
  | DeferClose c => call (Driver.CallClose c) s
  | DeferStop => s
  end.

(** At return: [pending] has the latest [defer] at its head. *)
Definition on_return (pending : list Deferred) (s : World) : World :=
  foldl (λ s d, run_deferred d s) s pending.

(** ** getMapDataHandler (server.go, lines 75-108) *)

(** A function body under way: the state, the response writer, and the
    calls deferred so far. *)
Record Frame := {
  world : World;
  w : HTTP.ResponseWriter;
  pending : list Deferred;
}.

(** Whether the body goes on to its next statement or has hit [return]. *)
Inductive Flow := Next | Return.

(** Lines 82-100, the body of [if len(cache.data) == 0]. *)
Definition coldFill (backend : Driver.FindResult) (f : Frame) : Frame * Flow :=
  let '(ctx, t, s) := WithTimeout Ctx.OfRequest 10 (world f) in
  let pending := DeferCancel t :: pending f in
  let s := call (Driver.CallFind ctx) s in
  match backend with
  | Driver.FindErr =>
      ({| world := s;
          w := HTTP.Error (w f) "Failed to fetch map data from MongoDB"
                 HTTP.StatusInternalServerError;
          pending := pending |}, Return)
  | Driver.Cursor docs =>
      let pending := DeferClose ctx :: pending in
      let s := call (Driver.CallAll Ctx.Background) s in
      let '(h, d, err) := Driver.Cursor_All (heap s) (data s) docs in
      let s := set_memory h d s in
      if err then
        ({| world := s;
            w := HTTP.Error (w f) "Failed to decode map data" HTTP.StatusInternalServerError;
            pending := pending |}, Return)
      else
        let s := set_cache_data (data s) s in
        let s := Println "Cache updated" s in
        ({| world := s; w := w f; pending := pending |}, Next)
  end.

(** [cache.data] as [encoding/json] sees it. *)
Definition encoded (s : World) : option string :=
  JSON.Marshal (bool_decide (base (cache_data s) = None)) (snapshot s).

(** Lines 103-107: [Encode] marshals the whole value first and writes
    it, with a newline, only when that worked. *)
Definition encode (f : Frame) : Frame :=
  match encoded (world f) with
  | Some text =>
      {| world := world f; w := HTTP.Write (text +:+ HTTP.newline) (w f); pending := pending f |}
  | None =>
      {| world := world f;
         w := HTTP.Error (w f) "Failed to encode map data as JSON"
                HTTP.StatusInternalServerError;
         pending := pending f |}
  end.

(** Lines 77-79, with the mutex taken: the unlock is deferred and the
    content type set. *)
Definition entry (rw : HTTP.ResponseWriter) (s : World) : Frame :=
  {| world := s; w := HTTP.Set_ "Content-Type" "application/json" rw;
     pending := [DeferUnlock] |}.

(** Lines 77-101: up to the end of [if len(cache.data) == 0]. *)
Definition fill (backend : Driver.FindResult) (rw : HTTP.ResponseWriter) (s : World)
  : Frame * Flow :=
  if len (cache_data s) =? 0 then coldFill backend (entry rw s) else (entry rw s, Next).

(** The handler on one request: [backend] is what the store answers if
    it is asked; the result is the state after the handler returned and
    the response as it went out. *)
Definition getMapDataHandler (backend : Driver.FindResult) (rw : HTTP.ResponseWriter)
    (s : World) : option (World * HTTP.ResponseWriter) :=
  s ← Lock s;
  let '(f, flow) := fill backend rw s in
  let f := match flow with Next => encode f | Return => f end in
  Some (on_return (pending f) (world f), w f).

(** ** updateCacheAsync (server.go, lines 110-142) *)

(** One turn of the [for] loop, taken when the ticker fires (lines
    117-139).  [deferred] holds the calls the function has deferred so
    far: they run when [updateCacheAsync] returns, and the loop has no
    exit, so a turn can only add to them. *)
Definition tick (backend : Driver.FindResult) (deferred : list Deferred) (s : World)
  : option (list Deferred * World) :=
  s ← Lock s;
  let '(ctx, t, s) := WithTimeout Ctx.Background 10 s in
  let deferred := DeferCancel t :: deferred in
  let s := call (Driver.CallFind ctx) s in
  match backend with
  | Driver.FindErr =>
      let s := Println "Error fetching data from MongoDB:" s in
      Some (deferred, Unlock s)
  | Driver.Cursor docs =>
      let deferred := DeferClose ctx :: deferred in
      let s := call (Driver.CallAll Ctx.Background) s in
      let '(h, d, err) := Driver.Cursor_All (heap s) (data s) docs in
      let s := set_memory h d s in
      if err then
        let s := Println "Error decoding map data:" s in
        Some (deferred, Unlock s)
      else
        let s := set_cache_data (data s) s in
        let s := Println "Cache updated" s in
        Some (deferred, Unlock s)
  end.

(** ** The running server: requests and ticks, one critical section at a time

    Handler and refresher both hold [cacheMutex] from their first
    statement to their last, so however the goroutines are scheduled the
    shared state goes through their bodies one whole body after another. *)

Inductive Event :=
| Request (backend : Driver.FindResult)   (* GET /api/map *)
| Tick (backend : Driver.FindResult).     (* the ticker fires *)

Record Server := {
  shared : World;
  refresher : list Deferred;   (* what updateCacheAsync has deferred *)
}.

(** As [main] leaves it: [updateCacheAsync] has deferred [ticker.Stop()]. *)
Definition serving : Server := {| shared := start; refresher := [DeferStop] |}.

Definition step (e : Event) (sv : Server) : option (Server * option HTTP.ResponseWriter) :=
  match e with
  | Request backend =>
      '(s, response) ← getMapDataHandler backend HTTP.fresh (shared sv);
      Some ({| shared := s; refresher := refresher sv |}, Some response)
  | Tick backend =>
      '(deferred, s) ← tick backend (refresher sv) (shared sv);
      Some ({| shared := s; refresher := deferred |}, None)
  end.

(** The responses of a run, in the order of the requests. *)
Fixpoint run (es : list Event) (sv : Server) : option (Server * list HTTP.ResponseWriter) :=
  match es with
  | [] => Some (sv, [])
  | e :: es' =>
      '(sv1, r) ← step e sv;
      '(sv2, rs) ← run es' sv1;
      Some (sv2, from_option (λ x, [x]) [] r ++ rs)
  end.

(** ** initMongoDB and main (server.go, lines 41-73 and 144-166) *)

(** What start-up meets outside the program: each library call's error,
    if it fails, and the variable read from the environment. *)
Record Env := {
  godotenv_Load : option string;
  MONGO_URI : string;
  mongo_Connect : option string;
  client_Ping : option string;
  ListenAndServe : option string;   (* [None]: the listener is bound and serves *)
}.

(** What [initMongoDB] prints, and the error it returns ([None] for [nil]). *)
Definition initMongoDB (e : Env) : list string * option string :=
  match godotenv_Load e with
  | Some err => ([], Some err)
  | None =>
      if String.eqb (MONGO_URI e) "" then
        ([], Some "MONGO_URI environment variable is not set")
      else
        match mongo_Connect e with
        | Some err => ([], Some err)
        | None =>
            match client_Ping e with
            | Some err => ([], Some err)
            | None => (["Connected to MongoDB!"], None)
            end
        end
  end.

(** The process as [main] leaves it. *)
Record Process := {
  printed : list string;          (* standard output, in order *)
  refreshing : option Z;          (* go updateCacheAsync(interval), seconds *)
  listening : option Z;           (* the port requests are served on *)
  exit_status : option Z;         (* [None] while the process runs *)
}.

(** [main].  Returning from it ends a Go program with status 0;
    [http.ListenAndServe] returns only when it fails. *)
Definition main (e : Env) : Process :=
  let '(out, err) := initMongoDB e in
  match err with
  | Some err =>
      {| printed := out ++ ["Error initializing MongoDB: " +:+ err];
         refreshing := None; listening := None; exit_status := Some 0%Z |}
  | None =>
      let updateInterval := 20%Z in
      let port := 8080%Z in
      match ListenAndServe e with
      | None =>
          {| printed := out;
             refreshing := Some updateInterval; listening := Some port; exit_status := None |}
      | Some _ =>
          {| printed := out;
             refreshing := Some updateInterval; listening := None; exit_status := Some 0%Z |}
      end
  end.

(** * The vocabulary of the statements *)

(** ** What a fetch yields *)

(** Whether a document decodes: [Unmarshal] reports no failure.  (Which
    element it decodes into makes no difference to that.) *)
Definition decodable (d : Driver.Doc) : bool :=
  negb (Driver.Unmarshal d zeroLocation).2.

(** What a fetch yields: the number of records when the call and the
    decoding both work, [None] when either fails. *)
Definition fetched (backend : Driver.FindResult) : option nat :=
  match backend with
  | Driver.FindErr => None
  | Driver.Cursor docs => if forallb decodable docs then Some (length docs) else None
  end.

(** ** Counting fetches *)

Definition is_find (c : Driver.Call) : bool :=
  match c with Driver.CallFind _ => true | _ => false end.

(** The number of fetches made so far. *)
Definition finds (s : World) : nat := length (filter is_find (calls s)).

(** ** The snapshot's two states *)

(** EMPTY and POPULATED are what line 81 tells apart. *)
Inductive Observed := EMPTY | POPULATED.

Definition observed (s : World) : Observed :=
  if len (cache_data s) =? 0 then EMPTY else POPULATED.

Definition after_fetch (n : nat) : Observed := if n =? 0 then EMPTY else POPULATED.

(** The state machine the code implements: a tick always fetches, a
    request only from EMPTY; a fetch that fails changes nothing, and one
    that succeeds leaves POPULATED exactly when it brought a record. *)
Definition transition (e : Event) (o : Observed) : Observed :=
  match e with
  | Tick backend =>
      match fetched backend with Some n => after_fetch n | None => o end
  | Request backend =>
      match o with
      | POPULATED => POPULATED
      | EMPTY => match fetched backend with Some n => after_fetch n | None => EMPTY end
      end
  end.

(** ** Reading the cache *)

(** The events that write nothing to the cache's memory: requests (while
    the cache is populated) and ticks whose fetch fails at the call. *)
Definition quiet (e : Event) : bool :=
  match e with
  | Request _ | Tick Driver.FindErr => true
  | Tick (Driver.Cursor _) => false
  end.

(** The response to a request served from the cache. *)
Definition reply (s : World) : HTTP.ResponseWriter := w (encode (entry HTTP.fresh s)).

(** ** The handler at the encoder *)

(** The state in which the handler reaches [Encode] on line 104, if it
    gets there. *)
Definition at_encode (backend : Driver.FindResult) (s : World) : option World :=
  s ← Lock s;
  let '(f, flow) := fill backend HTTP.fresh s in
  match flow with Next => Some (world f) | Return => None end.

(** The handler reaches [Encode] and [Encode] fails. *)
Definition encode_fails (backend : Driver.FindResult) (s : World) : bool :=
  match at_encode backend s with
  | Some s1 => bool_decide (encoded s1 = None)
  | None => false
  end.

(** ** Slices that fit their arrays, and the states the server gets into *)

(** A slice header is sound in a heap when its array is there and has
    the slice's capacity; the nil slice has none. *)
Definition slice_ok (h : arrays MapLocation) (s : slice) : Prop :=
  len s ≤ cap s ∧
  match base s with
  | Some a => ∃ arr, h !! a = Some arr ∧ length arr = cap s
  | None => cap s = 0
  end.

(** Arrays stay where they are and keep their size. *)
Definition extends (h h' : arrays MapLocation) : Prop :=
  ∀ a arr, h !! a = Some arr → ∃ arr', h' !! a = Some arr' ∧ length arr' = length arr.

(** [data] is a sound slice.  ([cache.data] is either nil or a copy of
    [data]'s header, made when [data] was sound.) *)
Definition consistent (s : World) : Prop := slice_ok (heap s) (data s).

(** The states the server gets into: those some history of requests and
    ticks leads to from start-up. *)
Definition reachable (sv : Server) : Prop :=
  ∃ history responses, run history serving = Some (sv, responses).

(** ** Sample data *)

Definition town : MapLocation :=
  {| ID := "1"; Location := "Town"; XY := {| X := 1.5%float; Y := 2.5%float |} |}.

Definition mill : MapLocation :=
  {| ID := "2"; Location := "Mill"; XY := {| X := 3%float; Y := 4%float |} |}.

(** Record 1 after its label was changed in the store. *)
Definition city : MapLocation :=
  {| ID := "1"; Location := "City"; XY := {| X := 1.5%float; Y := 2.5%float |} |}.

(** A record whose x coordinate is not a number. *)
Definition adrift : MapLocation :=
  {| ID := "3"; Location := "Adrift"; XY := {| X := nan; Y := 0%float |} |}.

(** JSON text written with ['] for the double quote. *)
Fixpoint json (s : string) : string :=
  match s with
  | EmptyString => ""
  | String c rest => String (if Ascii.eqb c "'" then JSON.dquote else c) (json rest)
  end.

(** A store that does not answer the ping. *)
Definition store_down : Env :=
  {| godotenv_Load := None;
     MONGO_URI := "mongodb://localhost:27017";
     mongo_Connect := None;
     client_Ping := Some "server selection error: context deadline exceeded";
     ListenAndServe := None |}.

(** The server once a tick has fetched [town; mill]. *)
Definition stocked : Server :=
  from_option fst serving
    (run [Tick (Driver.Cursor [Driver.Good town; Driver.Good mill])] serving).

(** Closed statements about the code are settled by running it. *)
Ltac by_running := vm_compute; reflexivity.

(** ** The state between critical sections *)

(** What holds whenever no critical section is under way: [data] is a
    sound slice, the mutex is free, [cache.data] is the very header of
    [data], and every timer in use was handed out before [next_timer]. *)
Definition sound (s : World) : Prop :=
  consistent s ∧
  cacheMutex s = false ∧
  cache_data s = data s ∧
  Forall (λ t, t < next_timer s) (timers s).

(** ** Ticks, timers and the contexts of calls *)




(** The timer behind a context made by [context.WithTimeout]. *)
Definition timer_of (ctx : Ctx.context) : option nat :=
  match ctx with Ctx.WithTimeout _ _ t => Some t | _ => None end.

(** The timers of the fetches made so far, latest first. *)
Definition find_timers (s : World) : list nat :=
  omap (λ c, match c with Driver.CallFind ctx => timer_of ctx | _ => None end) (calls s).

(** How the program calls the driver: [Find] and [Close] under a
    ten-second timeout, [All] under [context.Background()]. *)
Definition as_written (c : Driver.Call) : Prop :=
  match c with
  | Driver.CallFind ctx | Driver.CallClose ctx =>
      Ctx.deadline ctx = Some 10%Z ∧ is_Some (timer_of ctx)
  | Driver.CallAll ctx => ctx = Ctx.Background
  end.

(** ** The program's calls to [Close] *)

Definition is_all (c : Driver.Call) : bool :=
  match c with Driver.CallAll _ => true | _ => false end.

Definition is_close (c : Driver.Call) : bool :=
  match c with Driver.CallClose _ => true | _ => false end.

Definition is_defer_close (d : Deferred) : bool :=
  match d with DeferClose _ => true | _ => false end.

(** The ticks on which [Find] hands the refresher a cursor. *)
Definition opens (e : Event) : bool :=
  match e with Tick (Driver.Cursor _) => true | _ => false end.

(** The cursors the program got so far: it calls [All] once on each. *)
Definition cursors (s : World) : nat := length (filter is_all (calls s)).

(** The calls to [cursor.Close] the program itself has made so far. *)
Definition closes (s : World) : nat := length (filter is_close (calls s)).

(** ** The cache as a plain value *)

(** A fetch as a cache of plain values sees it: the call fails ([None]),
    or it brings records, each as a document that carries every field. *)
Definition brings (fetch : option (list MapLocation)) : Driver.FindResult :=
  match fetch with
  | None => Driver.FindErr
  | Some ls => Driver.Cursor (Driver.Good <$> ls)
  end.

(** Requests and ticks over such fetches. *)
Inductive Plain :=
| PlainRequest (fetch : option (list MapLocation))
| PlainTick (fetch : option (list MapLocation)).

Definition event_of (p : Plain) : Event :=
  match p with
  | PlainRequest fetch => Request (brings fetch)
  | PlainTick fetch => Tick (brings fetch)
  end.

(** A cache that holds a list of records and replaces it whole: a tick
    stores what it fetched, a request does so when the list is empty, and
    a failed call changes nothing. *)
Definition replace_whole (cur : list MapLocation) (p : Plain) : list MapLocation :=
  match p with
  | PlainTick (Some ls) => ls
  | PlainTick None => cur
  | PlainRequest fetch =>
      match cur, fetch with
      | [], Some ls => ls
      | _, _ => cur
      end
  end.

(** ** Decoding over what is there *)

(** What a cursor's documents make of the records they are decoded
    into, one document per record from the first on, up to the first
    document that fails; records no document reaches are as they were. *)
Fixpoint overwrite (docs : list Driver.Doc) (old : list MapLocation) : list MapLocation :=
  match docs, old with
  | doc :: docs', o :: old' =>
      let '(l, err) := Driver.Unmarshal doc o in
      l :: (if err then old' else overwrite docs' old')
  | _, _ => old
  end.

(** ** Records that can be encoded *)

(** Neither NaN nor an infinity. *)
Definition finite (f : float64) : bool :=
  match Prim2SF f with
  | S754_nan | S754_infinity _ => false
  | _ => true
  end.

Definition encodable (l : MapLocation) : bool := finite (X (XY l)) && finite (Y (XY l)).

(** ** The responses the handler gives *)

(** The message of the cold fill's failure, if it fails: line 88 when
    [Find] fails, line 94 when a document does not decode. *)
Definition fill_failure (backend : Driver.FindResult) : option string :=
  match backend with
  | Driver.FindErr => Some "Failed to fetch map data from MongoDB"
  | Driver.Cursor docs =>
      if forallb decodable docs then None else Some "Failed to decode map data"
  end.

(** The three messages of lines 88, 94 and 105. *)
Definition failure_messages : list string :=
  ["Failed to fetch map data from MongoDB";
   "Failed to decode map data";
   "Failed to encode map data as JSON"].

(** The answer to a request that got as far as the encoder with the
    content type set: the JSON text, or the encoder's failure. *)
Definition answered (text : option string) : HTTP.ResponseWriter :=
  match text with
  | Some text =>
      HTTP.Write (text +:+ HTTP.newline)
        (HTTP.Set_ "Content-Type" "application/json" HTTP.fresh)
  | None =>
      HTTP.Error (HTTP.Set_ "Content-Type" "application/json" HTTP.fresh)
        "Failed to encode map data as JSON" HTTP.StatusInternalServerError
  end.

(** A response as the client gets it: the JSON text with status 200, or
    a message in plain text with status 500. *)
Definition json_answer (r : HTTP.ResponseWriter) (text : string) : Prop :=
  HTTP.status r = Some 200 ∧
  HTTP.sent r !! "Content-Type" = Some "application/json" ∧
  HTTP.sent r !! "X-Content-Type-Options" = None ∧
  HTTP.body r = text +:+ HTTP.newline.

Definition error_answer (r : HTTP.ResponseWriter) (message : string) : Prop :=
  HTTP.status r = Some 500 ∧
  HTTP.sent r !! "Content-Type" = Some "text/plain; charset=utf-8" ∧
  HTTP.sent r !! "X-Content-Type-Options" = Some "nosniff" ∧
  HTTP.body r = message +:+ HTTP.newline.

(** ** What is printed *)



(** ** Start-up that gets through *)

(** Every step of [initMongoDB] works. *)
Definition initialises (e : Env) : Prop :=
  godotenv_Load e = None ∧ MONGO_URI e ≠ "" ∧ mongo_Connect e = None ∧ client_Ping e = None.

(** ** Looking into a state *)

(** The fields of a state built by the setters, read off without
    unfolding what is done to its lists. *)
Ltac open_state :=
  unfold sound, consistent;
  cbn [on_return foldl run_deferred world pending
       Unlock cancel call Println set_cache_data set_memory set_timers set_cacheMutex
       timers next_timer calls heap data cache_data cacheMutex stdout].

(** * Properties *)

(** ** The driver's [All] *)

(** Whether a document decodes does not depend on the element it is
    decoded into. *)
Lemma decodeCoordinates_err cs : ∀ c c',
  (Driver.decodeCoordinates cs c).2 = (Driver.decodeCoordinates cs c').2.
Proof. induction cs as [|[[x|]|[y|]|] cs IH]; intros c c'; simpl; auto. Qed.

Lemma decodeElements_err es : ∀ l l',
  (Driver.decodeElements es l).2 = (Driver.decodeElements es l').2.
Proof.
  induction es as [|[[s|]|[s|]|[cs|]|] es IH]; intros l l'; simpl; auto.
  pose proof (decodeCoordinates_err cs (XY l) (XY l')) as Hcs.
  destruct (Driver.decodeCoordinates cs (XY l)) as [c err],
           (Driver.decodeCoordinates cs (XY l')) as [c' err'].
  simpl in Hcs. subst err'. destruct err; simpl; auto.
Qed.

Lemma Unmarshal_err doc l : (Driver.Unmarshal doc l).2 = negb (decodable doc).
Proof.
  unfold decodable. rewrite negb_involutive. destruct doc as [es].
  apply decodeElements_err.
Qed.

(** The document of a record overwrites every field of its element. *)
Lemma Unmarshal_Good l currElem : Driver.Unmarshal (Driver.Good l) currElem = (l, false).
Proof. by destruct l as [i loc [x y]]. Qed.

Lemma addFromBatch_all_decodable docs : ∀ h sliceVal index,
  forallb decodable docs = true →
  ∃ h' sliceVal',
    Driver.addFromBatch h sliceVal index docs = (h', sliceVal', index + length docs, false).
Proof.
  induction docs as [|doc docs IH]; intros h sv i Hall; simpl in *.
  { exists h, sv. by rewrite Nat.add_0_r. }
  apply andb_prop in Hall as [Hdoc Hall].
  destruct (len sv =? i); [destruct (append _ _ _ _) as [h1 s1]|];
    match goal with
    | |- context [Driver.Unmarshal doc ?e] =>
        pose proof (Unmarshal_err doc e) as Herr;
        destruct (Driver.Unmarshal doc e) as [l err]
    end;
    simpl in Herr; rewrite Hdoc in Herr; simpl in Herr; subst err;
    match goal with
    | |- ∃ _ _, Driver.addFromBatch ?h0 ?s0 ?i0 _ = _ =>
        destruct (IH h0 s0 i0 Hall) as (h' & sv' & ->)
    end;
    exists h', sv'; by rewrite Nat.add_succ_r.
Qed.

Lemma addFromBatch_undecodable docs : ∀ h sliceVal index,
  forallb decodable docs = false →
  ∃ h' sliceVal' index',
    Driver.addFromBatch h sliceVal index docs = (h', sliceVal', index', true).
Proof.
  induction docs as [|doc docs IH]; intros h sv i Hall; simpl in *; [done|].
  destruct (len sv =? i); [destruct (append _ _ _ _) as [h1 s1]|];
    match goal with
    | |- context [Driver.Unmarshal doc ?e] =>
        pose proof (Unmarshal_err doc e) as Herr;
        destruct (Driver.Unmarshal doc e) as [l err]
    end;
    simpl in Herr; subst err;
    (destruct (decodable doc); simpl in *; [by apply IH|by eexists _, _, _]).
Qed.

(** [All] reports success exactly when every document decodes, and the
    slice it stores then has one element per document; when it fails the
    variable keeps its header. *)
Lemma Cursor_All_spec h results docs :
  ∃ h' d,
    Driver.Cursor_All h results docs = (h', d, negb (forallb decodable docs)) ∧
    if forallb decodable docs then len d = length docs else d = results.
Proof.
  unfold Driver.Cursor_All.
  destruct (forallb decodable docs) eqn:Hall.
  - destruct (addFromBatch_all_decodable docs h results 0 Hall) as (h' & sv' & ->).
    by exists h', (reslice sv' (0 + length docs)).
  - destruct (addFromBatch_undecodable docs h results 0 Hall) as (h' & sv' & i' & ->).
    by exists h', results.
Qed.

Lemma decodable_Good ls : forallb decodable (Driver.Good <$> ls) = true.
Proof.
  induction ls as [|l ls IH]; [done|]. rewrite fmap_cons. cbn [forallb].
  rewrite IH. unfold decodable. by rewrite Unmarshal_Good.
Qed.

(** ** Slices and the heap *)

Lemma view_empty (h : arrays MapLocation) s : len s = 0 → view h s = [].
Proof. unfold view. by intros ->. Qed.

Lemma extends_refl h : extends h h.
Proof. intros a arr Ha. by exists arr. Qed.

Lemma extends_trans h1 h2 h3 : extends h1 h2 → extends h2 h3 → extends h1 h3.
Proof.
  intros H12 H23 a arr Ha. destruct (H12 a arr Ha) as (arr2 & Ha2 & Hl2).
  destruct (H23 a arr2 Ha2) as (arr3 & Ha3 & Hl3). exists arr3. split; [done|congruence].
Qed.

Lemma extends_slice_ok h h' s : extends h h' → slice_ok h s → slice_ok h' s.
Proof.
  intros Hext [Hlen Hbase]. split; [done|]. destruct (base s) as [a|]; [|done].
  destruct Hbase as (arr & Ha & Hl). destruct (Hext a arr Ha) as (arr' & Ha' & Hl').
  exists arr'. split; [done|congruence].
Qed.

Lemma growcap_grows c : c < growcap c.
Proof.
  unfold growcap. destruct (c =? 0) eqn:H0; [apply Nat.eqb_eq in H0; lia|].
  apply Nat.eqb_neq in H0. destruct (c <? 256); [lia|].
  pose proof (Nat.div_le_lower_bound (c + 768) 4 1). lia.
Qed.

(** Writing an element of a sound slice. *)
Lemma store_spec h s i x :
  slice_ok h s → i < cap s →
  extends h (store h s i x) ∧
  slice_ok (store h s i x) s ∧
  array (store h s i x) s = <[i := x]> (array h s).
Proof.
  intros [Hlen Hbase] Hi. unfold store, array.
  destruct (base s) as [a|] eqn:Hb; [|lia].
  destruct Hbase as (arr & Ha & Hl).
  assert (alter (λ arr0, <[i := x]> arr0) a h !! a = Some (<[i := x]> arr)) as Halter.
  { by rewrite list_lookup_alter_eq, Ha. }
  split_and!.
  - intros a' arr' Ha'. destruct (decide (a' = a)) as [->|Hne].
    + exists (<[i := x]> arr). split; [done|]. rewrite length_insert. congruence.
    + exists arr'. by rewrite list_lookup_alter_ne.
  - split; [done|]. rewrite Hb. exists (<[i := x]> arr). by rewrite length_insert.
  - by rewrite Halter, Ha.
Qed.

(** Making room for one more element, as [addFromBatch] does when the
    slice is full: append, then stretch to the capacity. *)
Lemma append_stretch_spec h s x :
  slice_ok h s →
  ∃ h' s',
    append zeroLocation h s x = (h', s') ∧
    extends h h' ∧
    slice_ok h' (reslice s' (cap s')) ∧
    len s < cap s' ∧
    take (len s) (array h' (reslice s' (cap s'))) = view h s.
Proof.
  intros Hok. pose proof Hok as [Hlen Hbase]. unfold append.
  destruct (len s <? cap s) eqn:Hroom.
  - apply Nat.ltb_lt in Hroom.
    destruct (store_spec h s (len s) x Hok Hroom) as (Hext & [_ Hok'] & Harr).
    eexists _, _. split; [done|]. simpl. split_and!; [done|by split|done|].
    unfold array in *. simpl. rewrite Harr. unfold view, array.
    by rewrite take_insert_ge.
  - apply Nat.ltb_ge in Hroom. assert (cap s = len s) as Hfull by lia.
    pose proof (growcap_grows (cap s)) as Hgrow.
    assert (length (view h s) = len s) as Hview.
    { unfold view, array. rewrite length_take. destruct (base s) as [a|].
      - destruct Hbase as (arr & -> & Hl). simpl. lia.
      - lia. }
    eexists _, _. split; [done|]. simpl. split_and!.
    + intros a arr Ha. exists arr. by rewrite lookup_app_l by by eapply lookup_lt_Some.
    + split; [done|]. simpl. eexists. rewrite list_lookup_middle by done. split; [done|].
      rewrite length_app. simpl. rewrite length_replicate. lia.
    + lia.
    + unfold array at 1. simpl. rewrite list_lookup_middle by done. simpl.
      by rewrite take_app_length' by done.
Qed.

(** Making room for the element at [index], as [addFromBatch] does
    before it decodes a document. *)
Lemma addFromBatch_room h sliceVal index :
  slice_ok h sliceVal → index ≤ len sliceVal →
  ∃ h1 sliceVal1,
    (if len sliceVal =? index
     then let '(h', s') := append zeroLocation h sliceVal zeroLocation in
          (h', reslice s' (cap s'))
     else (h, sliceVal)) = (h1, sliceVal1) ∧
    extends h h1 ∧ slice_ok h1 sliceVal1 ∧ index < len sliceVal1 ∧
    take index (array h1 sliceVal1) = take index (array h sliceVal).
Proof.
  intros Hok Hi. destruct (len sliceVal =? index) eqn:Hfull.
  - apply Nat.eqb_eq in Hfull. subst index.
    destruct (append_stretch_spec h sliceVal zeroLocation Hok)
      as (h' & s' & -> & Hext & Hok' & Hroom & Htake).
    exists h', (reslice s' (cap s')). split_and!; [done..|]. by rewrite Htake.
  - apply Nat.eqb_neq in Hfull. exists h, sliceVal.
    split_and!; [done|apply extends_refl|done|lia|done].
Qed.

(** [addFromBatch] from a sound slice, whatever the documents: arrays
    stay in place and the slice stays sound. *)
Lemma addFromBatch_ok docs : ∀ h sliceVal index,
  slice_ok h sliceVal → index ≤ len sliceVal →
  ∃ h' sliceVal' index' err,
    Driver.addFromBatch h sliceVal index docs = (h', sliceVal', index', err) ∧
    extends h h' ∧ slice_ok h' sliceVal' ∧ index' ≤ len sliceVal'.
Proof.
  induction docs as [|doc docs IH]; intros h sv i Hok Hi; simpl.
  { exists h, sv, i, false. split_and!; [done|apply extends_refl|done..]. }
  destruct (addFromBatch_room h sv i Hok Hi) as (h1 & sv1 & -> & Hext1 & Hok1 & Hi1 & _).
  destruct (Driver.Unmarshal doc _) as [l err].
  pose proof Hok1 as [Hlen1 _].
  destruct (store_spec h1 sv1 i l Hok1 ltac:(lia)) as (Hext2 & Hok2 & _).
  destruct err.
  - exists (store h1 sv1 i l), sv1, i, true.
    split_and!; [done|eauto using extends_trans|done|lia].
  - destruct (IH (store h1 sv1 i l) sv1 (S i) Hok2 ltac:(lia))
      as (h' & sv' & i' & err & -> & Hext' & Hok' & Hi').
    exists h', sv', i', err. split_and!; [done|eauto using extends_trans|done..].
Qed.

(** Over the documents of records, from a slice whose first [index]
    elements are [pre]: the first elements are then [pre] followed by the
    records. *)
Lemma addFromBatch_records ls : ∀ h sliceVal index pre,
  slice_ok h sliceVal → index ≤ len sliceVal →
  take index (array h sliceVal) = pre →
  ∃ h' sliceVal',
    Driver.addFromBatch h sliceVal index (Driver.Good <$> ls)
      = (h', sliceVal', index + length ls, false) ∧
    take (index + length ls) (array h' sliceVal') = pre ++ ls.
Proof.
  induction ls as [|l ls IH]; intros h sv i pre Hok Hi Hpre.
  { exists h, sv. simpl. by rewrite Nat.add_0_r, app_nil_r. }
  rewrite fmap_cons. cbn [Driver.addFromBatch].
  destruct (addFromBatch_room h sv i Hok Hi) as (h1 & sv1 & -> & _ & Hok1 & Hi1 & Hpre1).
  rewrite Unmarshal_Good.
  pose proof Hok1 as [Hlen1 Hbase1].
  destruct (store_spec h1 sv1 i l Hok1 ltac:(lia)) as (_ & Hok2 & Harr2).
  destruct (IH (store h1 sv1 i l) sv1 (S i) (pre ++ [l]) Hok2 ltac:(lia))
    as (h' & sv' & Hrun & Hrec).
  { rewrite Harr2.
    assert (i < length (array h1 sv1)) as Hin.
    { unfold array. destruct (base sv1) as [a|]; [|lia].
      destruct Hbase1 as (arr & -> & Hl). simpl. lia. }
    rewrite (take_S_r _ _ l) by by apply list_lookup_insert_eq.
    by rewrite take_insert_ge, Hpre1, Hpre by lia. }
  exists h', sv'. cbn [length]. rewrite Nat.add_succ_r, Hrun. split; [done|].
  simpl in Hrec. by rewrite Hrec, <- app_assoc.
Qed.

(** [All] from a sound slice: the variable stays sound, and over the
    documents of records it then shows exactly these records, in the
    cursor's order. *)
Lemma Cursor_All_records h results docs :
  slice_ok h results →
  ∃ h' d err,
    Driver.Cursor_All h results docs = (h', d, err) ∧
    slice_ok h' d ∧
    (∀ ls, docs = Driver.Good <$> ls → view h' d = ls).
Proof.
  intros Hok. unfold Driver.Cursor_All.
  destruct (addFromBatch_ok docs h results 0 Hok ltac:(lia))
    as (h' & sv' & i' & err & Hrun & Hext & [Hlen' Hbase'] & Hi').
  rewrite Hrun.
  assert (∀ ls, docs = Driver.Good <$> ls →
                err = false ∧ view h' (reslice sv' i') = ls) as Hrec.
  { intros ls ->.
    destruct (addFromBatch_records ls h results 0 [] Hok ltac:(lia) eq_refl)
      as (h0 & sv0 & Hrun0 & Hrec).
    rewrite Hrun in Hrun0. by injection Hrun0 as <- <- -> ->. }
  destruct err.
  - exists h', results, true. split_and!; [done|by eapply extends_slice_ok|].
    intros ls Hls. by destruct (Hrec ls Hls).
  - exists h', (reslice sv' i'), false. split_and!; [done| |].
    + split; [simpl; lia|done].
    + intros ls Hls. by destruct (Hrec ls Hls).
Qed.

(** ** Deferred calls

    The deferred calls touch the mutex, the timers and the driver's log;
    the memory is as the body left it. *)

Lemma on_return_memory pending s :
  heap (on_return pending s) = heap s ∧
  data (on_return pending s) = data s ∧
  cache_data (on_return pending s) = cache_data s.
Proof.
  revert s. induction pending as [|d pending IH]; intros s; [done|].
  unfold on_return in *. simpl. destruct (IH (run_deferred d s)) as (-> & -> & ->).
  by destruct d.
Qed.

Lemma on_return_unlocks pending s :
  DeferUnlock ∈ pending → cacheMutex (on_return pending s) = false.
Proof.
  revert s. induction pending as [|d pending IH]; intros s Hin.
  - by apply elem_of_nil in Hin.
  - unfold on_return in *. simpl. apply elem_of_cons in Hin as [<-|Hin]; [|by apply IH].
    simpl. clear IH. generalize (Unlock s), (eq_refl : cacheMutex (Unlock s) = false).
    induction pending as [|d pending IH]; intros s' Hs'; [done|].
    simpl. apply IH. by destruct d.
Qed.

Lemma finds_on_return pending s : finds (on_return pending s) = finds s.
Proof.
  revert s. induction pending as [|d pending IH]; intros s; [done|].
  unfold on_return in *. simpl. rewrite IH. by destruct d.
Qed.

Lemma consistent_on_return pending s : consistent s → consistent (on_return pending s).
Proof.
  unfold consistent. by destruct (on_return_memory pending s) as (-> & -> & _).
Qed.

(** ** The two critical sections *)

Lemma Unlock_Lock s : cacheMutex s = false → Unlock (set_cacheMutex true s) = s.
Proof. destruct s; simpl; by intros ->. Qed.

(** The cold fill makes one fetch.  When the fetch works the body goes
    on with [cache.data] holding one element per document; when it fails
    the body returns and [cache.data] is the header it was. *)
Lemma coldFill_spec backend f :
  ∃ f' flow,
    coldFill backend f = (f', flow) ∧
    (DeferUnlock ∈ pending f → DeferUnlock ∈ pending f') ∧
    finds (world f') = S (finds (world f)) ∧
    match fetched backend with
    | Some n => flow = Next ∧ len (cache_data (world f')) = n ∧ w f' = w f
    | None => flow = Return ∧ cache_data (world f') = cache_data (world f)
    end.
Proof.
  unfold coldFill, WithTimeout. destruct backend as [|docs]; simpl.
  - eexists _, _. split; [done|]. simpl. split; [set_solver|done].
  - destruct (Cursor_All_spec (heap (world f)) (data (world f)) docs)
      as (h' & d & -> & Hd).
    destruct (forallb decodable docs); simpl;
      (eexists _, _; split; [done|]); simpl; (split; [set_solver|]); done.
Qed.

Lemma fill_spec backend rw s :
  ∃ f flow,
    fill backend rw s = (f, flow) ∧
    DeferUnlock ∈ pending f ∧
    finds (world f) = finds s + (if len (cache_data s) =? 0 then 1 else 0) ∧
    if len (cache_data s) =? 0 then
      match fetched backend with
      | Some n => flow = Next ∧ len (cache_data (world f)) = n
      | None => flow = Return ∧ cache_data (world f) = cache_data s
      end
    else flow = Next ∧ f = entry rw s.
Proof.
  unfold fill. destruct (len (cache_data s) =? 0).
  - edestruct (coldFill_spec backend) as (f' & flow & -> & Hu & Hf & Hc).
    exists f', flow. split; [done|]. split; [apply Hu; set_solver|].
    simpl in *. split; [lia|]. destruct (fetched backend); [by destruct Hc as (? & ? & _)|done].
  - eexists _, _. split; [done|]. simpl. split; [set_solver|]. split; [lia|done].
Qed.

(** Where the body goes on after the fill, the writer has only had its
    content type set. *)
Lemma fill_Next_writer backend rw s f :
  fill backend rw s = (f, Next) →
  w f = HTTP.Set_ "Content-Type" "application/json" rw.
Proof.
  unfold fill. destruct (len (cache_data s) =? 0); [|by intros [= <-]].
  destruct (coldFill_spec backend (entry rw s)) as (f' & flow & -> & _ & _ & Hf).
  intros [= -> ->]. destruct (fetched backend); [by destruct Hf as (_ & _ & ?)|by destruct Hf].
Qed.

Lemma encode_world f : world (encode f) = world f ∧ pending (encode f) = pending f.
Proof. unfold encode. by destruct (encoded (world f)). Qed.

(** The handler returns, with the mutex released, whatever the store answers. *)
Lemma getMapDataHandler_returns backend rw s :
  cacheMutex s = false →
  ∃ s' response,
    getMapDataHandler backend rw s = Some (s', response) ∧ cacheMutex s' = false.
Proof.
  intros Hfree. unfold getMapDataHandler, Lock. rewrite Hfree. simpl.
  destruct (fill_spec backend rw (set_cacheMutex true s)) as (f & flow & -> & Hu & _).
  eexists _, _. split; [done|].
  apply on_return_unlocks. destruct flow; [|done].
  by destruct (encode_world f) as (_ & ->).
Qed.

(** With a populated cache the handler asks nothing of the store and
    leaves the state as it found it; with an empty one it fetches once. *)
Lemma getMapDataHandler_spec backend rw s :
  cacheMutex s = false →
  ∃ s' response,
    getMapDataHandler backend rw s = Some (s', response) ∧
    cacheMutex s' = false ∧
    finds s' = finds s + (if len (cache_data s) =? 0 then 1 else 0) ∧
    if len (cache_data s) =? 0 then
      match fetched backend with
      | Some n => len (cache_data s') = n
      | None => cache_data s' = cache_data s
      end
    else s' = s ∧ response = w (encode (entry rw (set_cacheMutex true s))).
Proof.
  intros Hfree.
  destruct (getMapDataHandler_returns backend rw s Hfree) as (s' & r & Hrun & Hfree').
  exists s', r. split; [done|]. split; [done|].
  revert Hrun. unfold getMapDataHandler, Lock. rewrite Hfree. simpl.
  destruct (fill_spec backend rw (set_cacheMutex true s)) as (f & flow & -> & _ & Hfinds & Hf).
  simpl in *. intros [= <- <-]. rewrite finds_on_return.
  assert (world (match flow with Next => encode f | Return => f end) = world f) as ->.
  { destruct flow; [apply encode_world|done]. }
  split; [done|].
  destruct (on_return_memory
    (pending (match flow with Next => encode f | Return => f end)) (world f))
    as (_ & _ & ->).
  destruct (len (cache_data s) =? 0).
  - destruct (fetched backend); by destruct Hf.
  - destruct Hf as [-> ->]. split; [|done].
    destruct (encode_world (entry rw (set_cacheMutex true s))) as (_ & ->).
    by apply Unlock_Lock.
Qed.

(** The handler keeps the state consistent too; when its cold fill
    succeeds the snapshot is exactly what was fetched. *)
Lemma getMapDataHandler_records backend rw s :
  consistent s → cacheMutex s = false →
  ∃ s' response,
    getMapDataHandler backend rw s = Some (s', response) ∧
    consistent s' ∧ cacheMutex s' = false ∧
    (len (cache_data s) = 0 →
     match backend with
     | Driver.FindErr => heap s' = heap s ∧ cache_data s' = cache_data s
     | Driver.Cursor docs =>
         (∀ ls, docs = Driver.Good <$> ls → snapshot s' = ls) ∧
         (forallb decodable docs = false → cache_data s' = cache_data s)
     end).
Proof.
  intros Hok Hfree.
  destruct (getMapDataHandler_spec backend rw s Hfree) as (s' & r & Hrun & Hfree' & _ & Hs').
  exists s', r. split; [done|]. revert Hrun.
  unfold getMapDataHandler, Lock, fill. rewrite Hfree. simpl.
  destruct (len (cache_data s) =? 0) eqn:Hlen.
  - unfold coldFill, WithTimeout. simpl. destruct backend as [|docs]; simpl.
    { intros [= <- <-]. split_and!; [exact Hok|done|done]. }
    destruct (Cursor_All_records (heap s) (data s) docs Hok)
      as (h' & d & err & Hall & Hok' & Hrec).
    destruct (Cursor_All_spec (heap s) (data s) docs) as (h0 & d0 & Hall0 & _).
    rewrite Hall in Hall0 |- *. injection Hall0 as <- <- ->.
    destruct (forallb decodable docs) eqn:Hdec; simpl.
    + match goal with
      | |- context [encode ?f] => destruct (encode_world f) as (-> & ->)
      end.
      intros [= <- <-]. split_and!; [exact Hok'|done|]. intros _. split; [|done].
      intros ls Hls. by apply Hrec.
    + intros [= <- <-]. split_and!; [exact Hok'|done|]. intros _. split; [|done].
      intros ls ->. by rewrite decodable_Good in Hdec.
  - destruct Hs' as [-> _]. intros _. apply Nat.eqb_neq in Hlen. by split_and!.
Qed.

Lemma tick_spec backend deferred s :
  cacheMutex s = false →
  ∃ deferred' s',
    tick backend deferred s = Some (deferred', s') ∧
    cacheMutex s' = false ∧
    finds s' = S (finds s) ∧
    match fetched backend with
    | Some n => len (cache_data s') = n
    | None => cache_data s' = cache_data s
    end.
Proof.
  intros Hfree. unfold tick, Lock, WithTimeout. rewrite Hfree. simpl.
  destruct backend as [|docs]; simpl; [by eexists _, _|].
  destruct (Cursor_All_spec (heap s) (data s) docs) as (h' & d & -> & Hd).
  destruct (forallb decodable docs); simpl; by eexists _, _.
Qed.

(** A turn of the refresher keeps the state consistent; when the fetch
    succeeds the snapshot is exactly what was fetched. *)
Lemma tick_records backend deferred s :
  consistent s → cacheMutex s = false →
  ∃ deferred' s',
    tick backend deferred s = Some (deferred', s') ∧
    consistent s' ∧ cacheMutex s' = false ∧
    match backend with
    | Driver.FindErr => heap s' = heap s ∧ cache_data s' = cache_data s
    | Driver.Cursor docs => ∀ ls, docs = Driver.Good <$> ls → snapshot s' = ls
    end.
Proof.
  intros Hok Hfree. unfold tick, Lock, WithTimeout. rewrite Hfree. simpl.
  destruct backend as [|docs]; simpl; [by eexists _, _|].
  destruct (Cursor_All_records (heap s) (data s) docs Hok) as (h' & d & err & Hall & Hok' & Hrec).
  destruct (Cursor_All_spec (heap s) (data s) docs) as (h0 & d0 & Hall0 & _).
  rewrite Hall in Hall0 |- *. injection Hall0 as <- <- ->.
  destruct (forallb decodable docs) eqn:Hdec; simpl;
    (eexists _, _; split; [done|]); simpl.
  - split_and!; [done..|]. intros ls Hls. by apply Hrec.
  - split_and!; [done..|]. intros ls ->. by rewrite decodable_Good in Hdec.
Qed.

(** ** Histories *)

Lemma start_consistent : consistent start.
Proof. by split. Qed.

(** Whatever the requests, the ticks and the store's answers, every
    critical section runs to its end with the mutex released. *)
Lemma run_completes es : ∀ sv,
  consistent (shared sv) → cacheMutex (shared sv) = false →
  ∃ sv' responses,
    run es sv = Some (sv', responses) ∧
    consistent (shared sv') ∧ cacheMutex (shared sv') = false.
Proof.
  induction es as [|e es IH]; intros sv Hok Hfree; [by exists sv, []|].
  simpl. destruct e as [backend|backend]; simpl.
  - destruct (getMapDataHandler_records backend HTTP.fresh (shared sv) Hok Hfree)
      as (s' & r & -> & Hok' & Hfree' & _). simpl.
    destruct (IH {| shared := s'; refresher := refresher sv |} Hok' Hfree')
      as (sv' & rs & -> & Hok'' & Hfree''). simpl. by eexists _, _.
  - destruct (tick_records backend (refresher sv) (shared sv) Hok Hfree)
      as (d' & s' & -> & Hok' & Hfree' & _). simpl.
    destruct (IH {| shared := s'; refresher := d' |} Hok' Hfree')
      as (sv' & rs & -> & Hok'' & Hfree''). simpl. by eexists _, _.
Qed.

Lemma reachable_serving : reachable serving.
Proof. by exists [], []. Qed.

Lemma reachable_ok sv :
  reachable sv → consistent (shared sv) ∧ cacheMutex (shared sv) = false.
Proof.
  intros (history & rs & Hrun).
  destruct (run_completes history serving start_consistent eq_refl)
    as (sv' & rs' & Hrun' & Hok & Hfree).
  rewrite Hrun in Hrun'. by injection Hrun' as <- <-.
Qed.

(** ** Failed refreshes *)

(** C1.  The claim says that a fetch attempt failing at the decode stage
    leaves the snapshot exactly as it was.  It does not: [cursor.All] is
    given [&data], and [data] shares its backing array with [cache.data]
    since the last successful fetch, so the documents decoded before the
    failure are already in the cache.  Here the cache holds [town; mill];
    the next tick decodes one document and fails on the second; the
    snapshot read afterwards is [city; mill]. *)
Theorem failed_decode_overwrites_snapshot :
  ∃ deferred s deferred' s',
    tick (Driver.Cursor [Driver.Good town; Driver.Good mill]) [DeferStop] start
      = Some (deferred, s) ∧
    snapshot s = [town; mill] ∧
    fetched (Driver.Cursor [Driver.Good city; Driver.Bad]) = None ∧
    tick (Driver.Cursor [Driver.Good city; Driver.Bad]) deferred s = Some (deferred', s') ∧
    cache_data s' = cache_data s ∧
    snapshot s' = [city; mill].
Proof. eexists _, _, _, _. split_and!; by_running. Qed.

(** C9.  The claim says that every response body is wholly one fetch's
    result set.  With the mutex serialising the bodies, take two ticks and
    a request: the first fetch yields [town; mill], the second fails after
    decoding [city], and the response then carries [city; mill], the first
    record from the second fetch and the second record from the first. *)
Theorem response_mixes_two_fetches :
  ∃ sv response text,
    run [Tick (Driver.Cursor [Driver.Good town; Driver.Good mill]);
         Tick (Driver.Cursor [Driver.Good city; Driver.Bad]);
         Request Driver.FindErr] serving = Some (sv, [response]) ∧
    HTTP.status response = Some 200 ∧
    JSON.Marshal false [city; mill] = Some text ∧
    HTTP.body response = text +:+ HTTP.newline ∧
    text =
      json "[{'id':'1','location':'City','xy':{'x':1.5,'y':2.5}},{'id':'2','location':'Mill','xy':{'x':3,'y':4}}]".
Proof. eexists _, _, _. split_and!; by_running. Qed.

(** A fetch that fails at the call to the store leaves the heap and
    [cache.data] untouched, in the refresher and in the handler alike, so
    the snapshot read afterwards is the one held before. *)
Theorem failed_find_keeps_snapshot (sv : Server) :
  reachable sv →
  (∃ sv',
     step (Tick Driver.FindErr) sv = Some (sv', None) ∧
     heap (shared sv') = heap (shared sv) ∧
     cache_data (shared sv') = cache_data (shared sv) ∧
     snapshot (shared sv') = snapshot (shared sv)) ∧
  (∃ sv' response,
     step (Request Driver.FindErr) sv = Some (sv', Some response) ∧
     heap (shared sv') = heap (shared sv) ∧
     cache_data (shared sv') = cache_data (shared sv) ∧
     snapshot (shared sv') = snapshot (shared sv)).
Proof.
  intros [Hok Hfree]%reachable_ok. split; simpl.
  - destruct (tick_records Driver.FindErr (refresher sv) (shared sv) Hok Hfree)
      as (d' & s' & -> & _ & _ & Hh & Hc).
    eexists. split; [done|]. simpl. unfold snapshot. by rewrite Hh, Hc.
  - destruct (getMapDataHandler_records Driver.FindErr HTTP.fresh (shared sv) Hok Hfree)
      as (s' & r & Hrun & _ & _ & Hcold).
    destruct (getMapDataHandler_spec Driver.FindErr HTTP.fresh (shared sv) Hfree)
      as (s0 & r0 & Hrun0 & _ & _ & Hs0).
    rewrite Hrun in Hrun0 |- *. injection Hrun0 as <- <-.
    eexists _, _. split; [done|]. simpl. unfold snapshot.
    destruct (len (cache_data (shared sv)) =? 0) eqn:Hlen.
    + apply Nat.eqb_eq in Hlen. destruct (Hcold Hlen) as [-> ->]. done.
    + by destruct Hs0 as [-> _].
Qed.

(** With [town; mill] in the cache. *)
Lemma failed_find_keeps_snapshot_witness :
  (∃ sv',
     step (Tick Driver.FindErr) stocked = Some (sv', None) ∧
     heap (shared sv') = heap (shared stocked) ∧
     cache_data (shared sv') = cache_data (shared stocked) ∧
     snapshot (shared sv') = snapshot (shared stocked)) ∧
  (∃ sv' response,
     step (Request Driver.FindErr) stocked = Some (sv', Some response) ∧
     heap (shared sv') = heap (shared stocked) ∧
     cache_data (shared sv') = cache_data (shared stocked) ∧
     snapshot (shared sv') = snapshot (shared stocked)).
Proof.
  apply (failed_find_keeps_snapshot stocked).
  exists [Tick (Driver.Cursor [Driver.Good town; Driver.Good mill])], []. by_running.
Defined.

(** A fetch made by the handler that fails, at the call or while
    decoding, leaves the snapshot as it was (empty, or the fetch would not
    have been made), and the requester gets status 500 and a plain-text
    message. *)
Theorem failed_cold_fill_answers_500 (sv : Server) (backend : Driver.FindResult) :
  reachable sv →
  len (cache_data (shared sv)) = 0 →
  fetched backend = None →
  ∃ sv' response,
    step (Request backend) sv = Some (sv', Some response) ∧
    snapshot (shared sv') = snapshot (shared sv) ∧
    HTTP.status response = Some 500 ∧
    HTTP.sent response !! "Content-Type" = Some "text/plain; charset=utf-8" ∧
    HTTP.body response =
      match backend with
      | Driver.FindErr => "Failed to fetch map data from MongoDB"
      | Driver.Cursor _ => "Failed to decode map data"
      end +:+ HTTP.newline.
Proof.
  intros [Hok Hfree]%reachable_ok Hlen Hfailed. simpl.
  destruct (getMapDataHandler_spec backend HTTP.fresh (shared sv) Hfree)
    as (s' & r & Hrun & _ & _ & Hs').
  rewrite Hrun. simpl. eexists _, _. split; [done|].
  rewrite Hlen, Hfailed in Hs'. simpl in Hs'.
  split.
  { unfold snapshot. simpl. rewrite (view_empty _ (cache_data s')) by by rewrite Hs'.
    by rewrite view_empty. }
  revert Hrun. unfold getMapDataHandler, Lock, fill. rewrite Hfree. simpl.
  rewrite Hlen. simpl. unfold coldFill, WithTimeout. simpl.
  destruct backend as [|docs]; simpl; [intros [= _ <-]; split_and!; by_running|].
  destruct (Cursor_All_spec (heap (shared sv)) (data (shared sv)) docs) as (h' & d & -> & _).
  simpl in Hfailed. destruct (forallb decodable docs); [done|]. simpl.
  intros [= _ <-]. split_and!; by_running.
Qed.

(** The first request, the second document undecodable. *)
Lemma failed_cold_fill_answers_500_witness :
  ∃ sv' response,
    step (Request (Driver.Cursor [Driver.Good town; Driver.Bad])) serving
      = Some (sv', Some response) ∧
    snapshot (shared sv') = snapshot (shared serving) ∧
    HTTP.status response = Some 500 ∧
    HTTP.sent response !! "Content-Type" = Some "text/plain; charset=utf-8" ∧
    HTTP.body response = "Failed to decode map data" +:+ HTTP.newline.
Proof.
  apply (failed_cold_fill_answers_500 serving (Driver.Cursor [Driver.Good town; Driver.Bad])).
  - exists [], []. reflexivity.
  - reflexivity.
  - reflexivity.
Defined.

(** ** The snapshot's states *)

(** C2, as stated, fails: a successful fetch does take the snapshot from
    POPULATED back to EMPTY, when the collection has become empty. *)
Lemma empty_result_set_empties_the_cache :
  ∃ sv sv',
    run [Tick (Driver.Cursor [Driver.Good town])] serving = Some (sv, []) ∧
    observed (shared sv) = POPULATED ∧
    fetched (Driver.Cursor []) = Some 0 ∧
    step (Tick (Driver.Cursor [])) sv = Some (sv', None) ∧
    observed (shared sv') = EMPTY.
Proof.
  eexists _, _. split_and!.
  - by_running.
  - by_running.
  - by_running.
  - by_running.
  - by_running.
Qed.

(** C2, amended.  Every tick and every request moves the snapshot as
    [transition] says: a successful fetch that returns at least one
    record makes or keeps it POPULATED, a successful fetch that returns
    none leaves it EMPTY, and a failed fetch, like a request served from
    the cache, leaves it in the state it was in. *)
Theorem snapshot_state_machine (e : Event) (sv : Server) :
  cacheMutex (shared sv) = false →
  ∃ sv' response,
    step e sv = Some (sv', response) ∧
    cacheMutex (shared sv') = false ∧
    observed (shared sv') = transition e (observed (shared sv)).
Proof.
  intros Hfree. destruct e as [backend|backend]; simpl.
  - destruct (getMapDataHandler_spec backend HTTP.fresh (shared sv) Hfree)
      as (s' & r & -> & Hfree' & _ & Hs').
    eexists _, _. split; [done|]. split; [done|]. simpl.
    unfold observed, after_fetch in *.
    destruct (len (cache_data (shared sv)) =? 0) eqn:Hlen.
    + destruct (fetched backend); [by subst|]. by rewrite Hs', Hlen.
    + destruct Hs' as [-> _]. by rewrite Hlen.
  - destruct (tick_spec backend (refresher sv) (shared sv) Hfree)
      as (d' & s' & -> & Hfree' & _ & Hs').
    eexists _, _. split; [done|]. split; [done|]. simpl.
    unfold observed, after_fetch. destruct (fetched backend); [by subst|]. by rewrite Hs'.
Qed.

(** The first tick, fetching two records. *)
Lemma snapshot_state_machine_witness :
  ∃ sv' response,
    step (Tick (Driver.Cursor [Driver.Good town; Driver.Good mill])) serving
      = Some (sv', response) ∧
    cacheMutex (shared sv') = false ∧
    observed (shared sv') = POPULATED.
Proof.
  apply (snapshot_state_machine
           (Tick (Driver.Cursor [Driver.Good town; Driver.Good mill])) serving).
  reflexivity.
Defined.

(** A refresh that succeeds replaces the snapshot wholesale: after the
    tick the cache reads as exactly the records fetched, in the store's
    order, whatever it held before. *)
Theorem refresh_replaces_wholesale (sv : Server) (ls : list MapLocation) :
  reachable sv →
  ∃ sv',
    step (Tick (Driver.Cursor (Driver.Good <$> ls))) sv = Some (sv', None) ∧
    snapshot (shared sv') = ls.
Proof.
  intros [Hok Hfree]%reachable_ok. simpl.
  destruct (tick_records (Driver.Cursor (Driver.Good <$> ls)) (refresher sv) (shared sv)
              Hok Hfree) as (d' & s' & -> & _ & _ & Hrec).
  eexists. split; [done|]. simpl. by apply Hrec.
Qed.

(** [town; mill] replaced by [city]. *)
Lemma refresh_replaces_wholesale_witness :
  ∃ sv',
    step (Tick (Driver.Cursor (Driver.Good <$> [city]))) stocked = Some (sv', None) ∧
    snapshot (shared sv') = [city].
Proof.
  apply (refresh_replaces_wholesale stocked [city]).
  exists [Tick (Driver.Cursor [Driver.Good town; Driver.Good mill])], []. by_running.
Defined.

(** ** Timeouts, the mutex and their release *)

(** C3.  The claim says that the whole fetch, decoding included, runs
    under the fresh ten-second timeout.  The handler passes that context
    to [Find] and to [Close], but [cursor.All], which decodes and fetches
    the further batches, is called with [context.Background()], which has
    no deadline; the refresher does the same. *)
Theorem decoding_runs_under_Background :
  ∃ s response deferred s',
    getMapDataHandler (Driver.Cursor [Driver.Good town]) HTTP.fresh start
      = Some (s, response) ∧
    calls s = [Driver.CallClose (Ctx.WithTimeout Ctx.OfRequest 10 0);
               Driver.CallAll Ctx.Background;
               Driver.CallFind (Ctx.WithTimeout Ctx.OfRequest 10 0)] ∧
    tick (Driver.Cursor [Driver.Good town]) [DeferStop] start = Some (deferred, s') ∧
    calls s' = [Driver.CallAll Ctx.Background;
                Driver.CallFind (Ctx.WithTimeout Ctx.Background 10 0)] ∧
    Ctx.deadline (Ctx.WithTimeout Ctx.OfRequest 10 0) = Some 10%Z ∧
    Ctx.deadline (Ctx.WithTimeout Ctx.Background 10 0) = Some 10%Z ∧
    Ctx.deadline Ctx.Background = None.
Proof. eexists _, _, _, _. split_and!; by_running. Qed.

(** C6.  The claim says that each turn of the refresher's loop releases
    the mutex and the turn's timeout before the next turn.  The mutex is
    released on each of the three paths; the timeout is not: [cancel] is
    deferred, and the deferred calls of a function whose loop has no exit
    never run.  After one turn on each path the timer is still live and
    its [cancel] is waiting, and after three turns three are. *)
Theorem tick_leaves_cancel_deferred :
  (∃ deferred s,
     tick Driver.FindErr [DeferStop] start = Some (deferred, s) ∧
     cacheMutex s = false ∧ timers s = [0] ∧
     deferred = [DeferCancel 0; DeferStop]) ∧
  (∃ deferred s,
     tick (Driver.Cursor [Driver.Bad]) [DeferStop] start = Some (deferred, s) ∧
     cacheMutex s = false ∧ timers s = [0] ∧
     deferred = [DeferClose (Ctx.WithTimeout Ctx.Background 10 0); DeferCancel 0; DeferStop]) ∧
  (∃ deferred s,
     tick (Driver.Cursor [Driver.Good town]) [DeferStop] start = Some (deferred, s) ∧
     cacheMutex s = false ∧ timers s = [0] ∧
     deferred = [DeferClose (Ctx.WithTimeout Ctx.Background 10 0); DeferCancel 0; DeferStop]) ∧
  (∃ sv,
     run [Tick Driver.FindErr; Tick Driver.FindErr; Tick Driver.FindErr] serving
       = Some (sv, []) ∧
     timers (shared sv) = [2; 1; 0] ∧
     refresher sv = [DeferCancel 2; DeferCancel 1; DeferCancel 0; DeferStop]).
Proof.
  split_and!.
  - eexists _, _. split_and!; by_running.
  - eexists _, _. split_and!; by_running.
  - eexists _, _. split_and!; by_running.
  - eexists. split_and!; by_running.
Qed.

(** Whatever requests and ticks arrive and whatever the store answers,
    each critical section runs to its end: no path keeps the mutex. *)
Theorem every_history_runs (history : list Event) :
  ∃ sv responses,
    run history serving = Some (sv, responses) ∧ cacheMutex (shared sv) = false.
Proof.
  destruct (run_completes history serving start_consistent eq_refl)
    as (sv & rs & Hrun & _ & Hfree).
  by exists sv, rs.
Qed.

(** ** The response *)

(** C4.  On a request whose JSON encoding fails, the response is status
    500 with the content type [text/plain] and the error message as its
    body, and the cache is what it was when the encoder was called: the
    failure changes neither the heap nor [cache.data] (nor [data]), and
    when the cache was populated on entry the handler leaves the whole
    state as it found it. *)
Theorem encode_failure_answers_500 (backend : Driver.FindResult) (s : World) :
  encode_fails backend s = true →
  ∃ s1 s' response,
    at_encode backend s = Some s1 ∧
    getMapDataHandler backend HTTP.fresh s = Some (s', response) ∧
    HTTP.status response = Some 500 ∧
    HTTP.sent response !! "Content-Type" = Some "text/plain; charset=utf-8" ∧
    HTTP.body response = "Failed to encode map data as JSON" +:+ HTTP.newline ∧
    heap s' = heap s1 ∧ cache_data s' = cache_data s1 ∧ data s' = data s1 ∧
    snapshot s' = snapshot s1 ∧
    (len (cache_data s) ≠ 0 → s' = s).
Proof.
  unfold encode_fails, at_encode, getMapDataHandler, Lock.
  destruct (cacheMutex s) eqn:Hfree; [done|]. simpl.
  destruct (fill backend HTTP.fresh (set_cacheMutex true s)) as [f flow] eqn:Hfill.
  destruct flow; [|done]. intros Hfails%bool_decide_eq_true.
  exists (world f). eexists _, _. split; [done|]. split; [done|].
  assert (w (encode f) =
          HTTP.Error (HTTP.Set_ "Content-Type" "application/json" HTTP.fresh)
            "Failed to encode map data as JSON" HTTP.StatusInternalServerError) as ->.
  { unfold encode. rewrite Hfails. simpl. by rewrite (fill_Next_writer _ _ _ _ Hfill). }
  destruct (encode_world f) as (-> & ->).
  split; [done|]. split; [by_running|]. split; [done|].
  destruct (on_return_memory (pending f) (world f)) as (Hh & Hd & Hc).
  split_and!; [done..|by unfold snapshot; rewrite Hh, Hc|].
  intros Hlen%Nat.eqb_neq.
  destruct (fill_spec backend HTTP.fresh (set_cacheMutex true s))
    as (f' & flow' & Hfill' & _ & _ & Hf).
  rewrite Hfill in Hfill'. injection Hfill' as <- <-.
  simpl in Hf. rewrite Hlen in Hf. destruct Hf as [_ ->].
  by apply Unlock_Lock.
Qed.

(** The first request, the second record with a NaN coordinate. *)
Lemma encode_failure_answers_500_witness :
  ∃ s1 s' response,
    at_encode (Driver.Cursor [Driver.Good town; Driver.Good adrift]) start = Some s1 ∧
    getMapDataHandler (Driver.Cursor [Driver.Good town; Driver.Good adrift]) HTTP.fresh start
      = Some (s', response) ∧
    HTTP.status response = Some 500 ∧
    HTTP.sent response !! "Content-Type" = Some "text/plain; charset=utf-8" ∧
    HTTP.body response = "Failed to encode map data as JSON" +:+ HTTP.newline ∧
    heap s' = heap s1 ∧ cache_data s' = cache_data s1 ∧ data s' = data s1 ∧
    snapshot s' = snapshot s1 ∧
    (len (cache_data start) ≠ 0 → s' = start).
Proof.
  apply (encode_failure_answers_500
           (Driver.Cursor [Driver.Good town; Driver.Good adrift]) start).
  vm_compute. reflexivity.
Defined.

(** C7.  The record with id "1", location "Town" and coordinates 1.5 and
    2.5, fetched on a cold read, goes out as the one element of the JSON
    array, written exactly as the claim has it; a later request served
    from the cache gets the same body. *)
Theorem town_round_trip :
  ∃ s response s' response',
    JSON.mapLocation town
      = Some (json "{'id':'1','location':'Town','xy':{'x':1.5,'y':2.5}}") ∧
    getMapDataHandler (Driver.Cursor [Driver.Good town]) HTTP.fresh start
      = Some (s, response) ∧
    HTTP.status response = Some 200 ∧
    HTTP.sent response !! "Content-Type" = Some "application/json" ∧
    HTTP.body response =
      "[" +:+ json "{'id':'1','location':'Town','xy':{'x':1.5,'y':2.5}}" +:+ "]"
          +:+ HTTP.newline ∧
    getMapDataHandler Driver.FindErr HTTP.fresh s = Some (s', response') ∧
    HTTP.body response' = HTTP.body response.
Proof.
  eexists _, _, _, _. split_and!.
  - by_running.
  - by_running.
  - by_running.
  - by_running.
  - by_running.
  - by_running.
  - by_running.
Qed.

(** The response served from the cache is read off the heap and
    [cache.data] alone. *)
Lemma reply_ext s1 s2 :
  heap s1 = heap s2 → cache_data s1 = cache_data s2 → reply s1 = reply s2.
Proof.
  intros Hh Hc. unfold reply, encode, encoded, snapshot, entry. simpl. rewrite Hh, Hc.
  by destruct (JSON.Marshal _ _).
Qed.

Lemma quiet_run events : ∀ sv,
  cacheMutex (shared sv) = false →
  len (cache_data (shared sv)) ≠ 0 →
  forallb quiet events = true →
  ∃ sv' responses,
    run events sv = Some (sv', responses) ∧
    heap (shared sv') = heap (shared sv) ∧
    cache_data (shared sv') = cache_data (shared sv) ∧
    Forall (λ r, r = reply (shared sv)) responses.
Proof.
  induction events as [|e events IH]; intros sv Hfree Hlen Hquiet; [by exists sv, []|].
  simpl in Hquiet. apply andb_prop in Hquiet as [He Hquiet].
  destruct e as [backend|[|docs]]; [| |done].
  - destruct (getMapDataHandler_spec backend HTTP.fresh (shared sv) Hfree)
      as (s' & r & Hrun & _ & _ & Hs').
    rewrite (proj2 (Nat.eqb_neq _ _) Hlen) in Hs'. destruct Hs' as [-> ->].
    destruct (IH sv Hfree Hlen Hquiet) as (sv' & rs & Hrest & Hh & Hc & Hrs).
    exists sv', (reply (shared sv) :: rs). simpl. rewrite Hrun. simpl.
    assert ({| shared := shared sv; refresher := refresher sv |} = sv) as -> by by destruct sv.
    rewrite Hrest. simpl. split_and!; [|done..|].
    + do 3 f_equal. by apply reply_ext.
    + by constructor.
  - destruct (tick_spec Driver.FindErr (refresher sv) (shared sv) Hfree)
      as (d' & s' & Hrun & Hfree' & _ & Hc').
    assert (heap s' = heap (shared sv)) as Hh'.
    { revert Hrun. unfold tick, Lock. rewrite Hfree. simpl. by intros [= _ <-]. }
    simpl in Hc'.
    destruct (IH {| shared := s'; refresher := d' |} Hfree' ltac:(simpl; congruence) Hquiet)
      as (sv' & rs & Hrest & Hh & Hc & Hrs).
    exists sv', rs. simpl in *. rewrite Hrun. simpl. rewrite Hrest. simpl.
    split_and!; [done|congruence|congruence|].
    eapply Forall_impl; [exact Hrs|]. intros r ->. by apply reply_ext.
Qed.

(** C8.  The claim says that with the cache populated any two requests
    get byte-identical output until the next successful refresh.  They do
    not: a refresh that fails while decoding is no successful refresh, yet
    it has written into the cache (see C1).  Here the cache holds
    [town; mill] and a request is answered with them; then a tick decodes
    one document and fails on the second; the next request is answered
    with [city; mill], another body. *)
Theorem reads_differ_across_failed_decode :
  ∃ sv r1 r2,
    reachable stocked ∧
    snapshot (shared stocked) = [town; mill] ∧
    fetched (Driver.Cursor [Driver.Good city; Driver.Bad]) = None ∧
    run [Request Driver.FindErr;
         Tick (Driver.Cursor [Driver.Good city; Driver.Bad]);
         Request Driver.FindErr] stocked = Some (sv, [r1; r2]) ∧
    HTTP.status r1 = Some 200 ∧
    HTTP.status r2 = Some 200 ∧
    HTTP.body r1 =
      json "[{'id':'1','location':'Town','xy':{'x':1.5,'y':2.5}},{'id':'2','location':'Mill','xy':{'x':3,'y':4}}]"
        +:+ HTTP.newline ∧
    HTTP.body r2 =
      json "[{'id':'1','location':'City','xy':{'x':1.5,'y':2.5}},{'id':'2','location':'Mill','xy':{'x':3,'y':4}}]"
        +:+ HTTP.newline ∧
    HTTP.body r1 ≠ HTTP.body r2.
Proof.
  eexists _, _, _. split_and!.
  - exists [Tick (Driver.Cursor [Driver.Good town; Driver.Good mill])], []. by_running.
  - by_running.
  - by_running.
  - by_running.
  - by_running.
  - by_running.
  - by_running.
  - by_running.
  - intros Hsame. vm_compute in Hsame. discriminate Hsame.
Qed.

(** What does hold of reads.  While the cache is populated and nothing
    writes into its array, that is, over any run of requests and of
    refresh attempts that fail at the call to the store, the cache keeps
    its contents and every request receives one and the same response,
    status, header and body, whatever the store would have answered. *)
Theorem populated_reads_are_identical (sv : Server) (events : list Event) :
  cacheMutex (shared sv) = false →
  len (cache_data (shared sv)) ≠ 0 →
  forallb quiet events = true →
  ∃ sv' responses,
    run events sv = Some (sv', responses) ∧
    snapshot (shared sv') = snapshot (shared sv) ∧
    Forall (λ r, r = reply (shared sv)) responses ∧
    ∀ r1 r2, r1 ∈ responses → r2 ∈ responses → HTTP.body r1 = HTTP.body r2.
Proof.
  intros Hfree Hlen Hquiet.
  destruct (quiet_run events sv Hfree Hlen Hquiet) as (sv' & rs & Hrun & Hh & Hc & Hrs).
  exists sv', rs. split_and!; [done| |done|].
  - unfold snapshot. by rewrite Hh, Hc.
  - rewrite Forall_forall in Hrs. intros r1 r2 Hr1 Hr2.
    by rewrite (Hrs r1 Hr1), (Hrs r2 Hr2).
Qed.

(** Two requests with [town; mill] in the cache, and between them a
    refresh attempt that fails at the call. *)
Lemma populated_reads_are_identical_witness :
  ∃ sv' responses,
    run [Request Driver.FindErr; Tick Driver.FindErr; Request (Driver.Cursor [])] stocked
      = Some (sv', responses) ∧
    snapshot (shared sv') = snapshot (shared stocked) ∧
    Forall (λ r, r = reply (shared stocked)) responses ∧
    ∀ r1 r2, r1 ∈ responses → r2 ∈ responses → HTTP.body r1 = HTTP.body r2.
Proof.
  apply (populated_reads_are_identical stocked
           [Request Driver.FindErr; Tick Driver.FindErr; Request (Driver.Cursor [])]).
  - reflexivity.
  - vm_compute. lia.
  - reflexivity.
Defined.

(** ** When the store is asked *)

(** C10.  Whether the handler fetches is decided by [len(cache.data)]
    alone: one fetch when it is zero, none otherwise.  A fetch that
    succeeds with no record leaves the length at zero, so against an empty
    collection each of [n] requests in a row makes a fetch of its own. *)
Theorem empty_cache_always_fetches (sv : Server) (n : nat) :
  cacheMutex (shared sv) = false →
  (∀ backend, ∃ s' response,
     getMapDataHandler backend HTTP.fresh (shared sv) = Some (s', response) ∧
     finds s' = finds (shared sv) + (if len (cache_data (shared sv)) =? 0 then 1 else 0)) ∧
  (len (cache_data (shared sv)) = 0 →
   ∃ sv' responses,
     run (replicate n (Request (Driver.Cursor []))) sv = Some (sv', responses) ∧
     length responses = n ∧
     finds (shared sv') = finds (shared sv) + n ∧
     len (cache_data (shared sv')) = 0).
Proof.
  intros Hfree. split.
  - intros backend.
    destruct (getMapDataHandler_spec backend HTTP.fresh (shared sv) Hfree)
      as (s' & r & Hrun & _ & Hfinds & _).
    by exists s', r.
  - revert sv Hfree. induction n as [|n IH]; intros sv Hfree Hlen.
    + exists sv, []. simpl. split_and!; [done..|lia|done].
    + destruct (getMapDataHandler_spec (Driver.Cursor []) HTTP.fresh (shared sv) Hfree)
        as (s' & r & Hrun & Hfree' & Hfinds & Hs').
      rewrite Hlen in Hfinds, Hs'. simpl in Hs'.
      destruct (IH {| shared := s'; refresher := refresher sv |} Hfree' Hs')
        as (sv' & rs & Hrest & Hn & Hfinds' & Hlen').
      exists sv', (r :: rs). simpl in *. rewrite Hrun. simpl. rewrite Hrest. simpl.
      split_and!; [done|by f_equal|lia|done].
Qed.

(** Three requests from start-up against an empty collection. *)
Lemma empty_cache_always_fetches_witness :
  (∀ backend, ∃ s' response,
     getMapDataHandler backend HTTP.fresh start = Some (s', response) ∧
     finds s' = 1) ∧
  (len (cache_data start) = 0 →
   ∃ sv' responses,
     run (replicate 3 (Request (Driver.Cursor []))) serving = Some (sv', responses) ∧
     length responses = 3 ∧
     finds (shared sv') = 3 ∧
     len (cache_data (shared sv')) = 0).
Proof. apply (empty_cache_always_fetches serving 3). reflexivity. Defined.

(** ** Start-up *)

(** C5, as stated, fails: with the store unreachable [main] prints the
    error and returns, and a Go program whose [main] returns ends with
    status 0. *)
Lemma store_down_exits_with_status_0 :
  (initMongoDB store_down).2 ≠ None ∧
  ¬ (listening (main store_down) = None ∧
     ∃ code, exit_status (main store_down) = Some code ∧ code ≠ 0%Z).
Proof.
  split; [done|]. intros (_ & code & Hexit & Hcode).
  vm_compute in Hexit. congruence.
Qed.

(** C5, amended.  When initialisation fails the process never serves:
    [main] prints the error and returns before it starts the refresher or
    binds the listener, and the process ends, with exit status 0. *)
Theorem failed_start_never_serves (e : Env) (err : string) :
  (initMongoDB e).2 = Some err →
  listening (main e) = None ∧
  refreshing (main e) = None ∧
  printed (main e) = (initMongoDB e).1 ++ ["Error initializing MongoDB: " +:+ err] ∧
  exit_status (main e) = Some 0%Z.
Proof.
  unfold main. destruct (initMongoDB e) as [out [err'|]]; simpl; [|done].
  by intros [= ->].
Qed.

(** The store does not answer the ping. *)
Lemma failed_start_never_serves_witness :
  listening (main store_down) = None ∧
  refreshing (main store_down) = None ∧
  printed (main store_down) =
    ["Error initializing MongoDB: "
       +:+ "server selection error: context deadline exceeded"] ∧
  exit_status (main store_down) = Some 0%Z.
Proof. apply (failed_start_never_serves store_down). reflexivity. Defined.

(** ** The response to a cold read *)

(** A cold fill that succeeds leaves the cache reading as the records
    fetched and answers with them: status 200, content type
    [application/json], and the records as one JSON array in the store's
    order, or status 500 when they cannot be encoded. *)
Theorem cold_fill_serves_the_fetch (sv : Server) (ls : list MapLocation) :
  reachable sv →
  len (cache_data (shared sv)) = 0 →
  ls ≠ [] →
  ∃ sv' response,
    step (Request (Driver.Cursor (Driver.Good <$> ls))) sv = Some (sv', Some response) ∧
    snapshot (shared sv') = ls ∧
    match JSON.Marshal false ls with
    | Some text =>
        HTTP.status response = Some 200 ∧
        HTTP.sent response !! "Content-Type" = Some "application/json" ∧
        HTTP.body response = text +:+ HTTP.newline
    | None => HTTP.status response = Some 500
    end.
Proof.
  intros [Hok Hfree]%reachable_ok Hlen Hls. simpl.
  unfold getMapDataHandler, Lock, fill. rewrite Hfree. simpl. rewrite Hlen. simpl.
  unfold coldFill, WithTimeout. simpl.
  destruct (Cursor_All_records (heap (shared sv)) (data (shared sv)) (Driver.Good <$> ls) Hok)
    as (h' & d & err & Hall & [Hlen' Hbase'] & Hrec).
  destruct (Cursor_All_spec (heap (shared sv)) (data (shared sv)) (Driver.Good <$> ls))
    as (h0 & d0 & Hall0 & _).
  rewrite Hall in Hall0 |- *. injection Hall0 as <- <- ->.
  rewrite decodable_Good. simpl.
  specialize (Hrec ls eq_refl).
  assert (base d ≠ None) as Hbase.
  { intros Hnil. rewrite Hnil in Hbase'. unfold view in Hrec.
    assert (len d = 0) as Hzero by lia. rewrite Hzero in Hrec. by apply Hls. }
  unfold encode, encoded, snapshot. simpl. rewrite Hrec.
  rewrite (bool_decide_eq_false_2 _ Hbase).
  destruct (JSON.Marshal false ls) as [text|]; simpl;
    (eexists _, _; split; [done|]); simpl; (split; [done|]).
  - split_and!; by_running.
  - by_running.
Qed.

(** The first request, fetching two records. *)
Lemma cold_fill_serves_the_fetch_witness :
  ∃ sv' response,
    step (Request (Driver.Cursor (Driver.Good <$> [town; mill]))) serving
      = Some (sv', Some response) ∧
    snapshot (shared sv') = [town; mill] ∧
    match JSON.Marshal false [town; mill] with
    | Some text =>
        HTTP.status response = Some 200 ∧
        HTTP.sent response !! "Content-Type" = Some "application/json" ∧
        HTTP.body response = text +:+ HTTP.newline
    | None => HTTP.status response = Some 500
    end.
Proof.
  apply (cold_fill_serves_the_fetch serving [town; mill]).
  - exists [], []. reflexivity.
  - reflexivity.
  - discriminate.
Defined.

(** * The rest of the program *)

(** ** What one critical section does to the state *)

Lemma cancel_latest t ts :
  Forall (λ t', t' < t) ts → filter (λ t', t' ≠ t) (t :: ts) = ts.
Proof.
  intros Hts. rewrite filter_cons_False by (intros H; by apply H).
  induction Hts as [|t' ts Ht' _ IH]; [done|].
  rewrite filter_cons_True by lia. by rewrite IH.
Qed.

Lemma Forall_lt_S (ts : list nat) n :
  Forall (λ t, t < n) ts → Forall (λ t, t < S n) ts.
Proof. intros H. eapply Forall_impl; [exact H|]. simpl. lia. Qed.

(** A turn of the refresher, in full: it takes a timer and keeps it, puts
    off its [cancel] (and the cursor's [Close]), and calls [Find] under the
    new context and [All] under [context.Background()]. *)
Lemma tick_effects backend deferred s :
  sound s →
  ∃ deferred' s',
    tick backend deferred s = Some (deferred', s') ∧
    sound s' ∧
    timers s' = next_timer s :: timers s ∧
    next_timer s' = S (next_timer s) ∧
    deferred' =
      match backend with
      | Driver.FindErr => [DeferCancel (next_timer s)]
      | Driver.Cursor _ =>
          [DeferClose (Ctx.WithTimeout Ctx.Background 10 (next_timer s));
           DeferCancel (next_timer s)]
      end ++ deferred ∧
    calls s' =
      match backend with
      | Driver.FindErr => []
      | Driver.Cursor _ => [Driver.CallAll Ctx.Background]
      end ++ Driver.CallFind (Ctx.WithTimeout Ctx.Background 10 (next_timer s)) :: calls s.
Proof.
  intros (Hok & Hfree & Hsame & Hts).
  unfold tick, Lock, WithTimeout. rewrite Hfree. simpl.
  destruct backend as [|docs]; simpl.
  { eexists _, _. split; [done|]. simpl. split_and!; [|done..].
    split_and!; [exact Hok|done|done|]. simpl. constructor; [lia|by apply Forall_lt_S]. }
  destruct (Cursor_All_records (heap s) (data s) docs Hok) as (h' & d & err & Hall & Hok' & _).
  destruct (Cursor_All_spec (heap s) (data s) docs) as (h0 & d0 & Hall0 & Hd).
  rewrite Hall in Hall0 |- *. injection Hall0 as <- <- ->.
  destruct (forallb decodable docs); simpl;
    (eexists _, _; split; [done|]); simpl; (split_and!; [|done..]).
  - split_and!; [exact Hok'|done|done|]. simpl. constructor; [lia|by apply Forall_lt_S].
  - split_and!; [exact Hok'|done|by subst|]. simpl. constructor; [lia|by apply Forall_lt_S].
Qed.

(** The handler, in full: with a populated cache it leaves the state as
    it is; with an empty one it takes a timer and gives it back, calls
    [Find] under the new context and, where [Find] worked, [All] under
    [context.Background()] and, on its way out, [Close]. *)
Lemma handler_effects backend rw s :
  sound s →
  ∃ s' response,
    getMapDataHandler backend rw s = Some (s', response) ∧
    sound s' ∧
    timers s' = timers s ∧
    if len (cache_data s) =? 0 then
      next_timer s' = S (next_timer s) ∧
      calls s' =
        match backend with
        | Driver.FindErr => []
        | Driver.Cursor _ =>
            [Driver.CallClose (Ctx.WithTimeout Ctx.OfRequest 10 (next_timer s));
             Driver.CallAll Ctx.Background]
        end ++ Driver.CallFind (Ctx.WithTimeout Ctx.OfRequest 10 (next_timer s)) :: calls s
    else s' = s.
Proof.
  intros (Hok & Hfree & Hsame & Hts).
  destruct (getMapDataHandler_spec backend rw s Hfree) as (s' & r & Hrun & _ & _ & Hs').
  exists s', r. split; [done|]. revert Hrun.
  unfold getMapDataHandler, Lock, fill. rewrite Hfree. simpl.
  destruct (len (cache_data s) =? 0) eqn:Hlen.
  - unfold coldFill, WithTimeout. simpl. destruct backend as [|docs]; simpl.
    { intros Hrun%(f_equal (option_map fst)). simpl in Hrun. injection Hrun as <-.
      clear Hs'. open_state. rewrite (cancel_latest _ _ Hts).
      split_and!; [exact Hok|done|done|by apply Forall_lt_S|done..]. }
    destruct (Cursor_All_records (heap s) (data s) docs Hok)
      as (h' & d & err & Hall & Hok' & _).
    destruct (Cursor_All_spec (heap s) (data s) docs) as (h0 & d0 & Hall0 & Hd).
    rewrite Hall in Hall0 |- *. injection Hall0 as <- <- ->.
    destruct (forallb decodable docs); simpl.
    + match goal with
      | |- context [encode ?f] => destruct (encode_world f) as (-> & ->)
      end.
      intros Hrun%(f_equal (option_map fst)). simpl in Hrun. injection Hrun as <-.
      clear Hs'. open_state. rewrite (cancel_latest _ _ Hts).
      split_and!; [exact Hok'|done|done|by apply Forall_lt_S|done..].
    + intros Hrun%(f_equal (option_map fst)). simpl in Hrun. injection Hrun as <-.
      clear Hs'. open_state. rewrite (cancel_latest _ _ Hts).
      split_and!; [exact Hok'|done|by subst|by apply Forall_lt_S|done..].
  - destruct Hs' as [-> _]. intros _. by split_and!.
Qed.

(** ** Invariants of the running server *)

Lemma step_effects e sv :
  sound (shared sv) →
  ∃ sv' response, step e sv = Some (sv', response) ∧ sound (shared sv').
Proof.
  intros Hsound. destruct e as [backend|backend]; simpl.
  - destruct (handler_effects backend HTTP.fresh (shared sv) Hsound)
      as (s' & r & -> & Hsound' & _). by eexists _, _.
  - destruct (tick_effects backend (refresher sv) (shared sv) Hsound)
      as (d' & s' & -> & Hsound' & _). by eexists _, _.
Qed.

(** What holds at start-up and is kept by every request and every tick
    holds after every history. *)
Lemma run_invariant (P : Server → Prop) :
  (∀ sv e sv' response,
     sound (shared sv) → P sv → step e sv = Some (sv', response) → P sv') →
  ∀ history sv sv' responses,
    sound (shared sv) → P sv → run history sv = Some (sv', responses) → P sv'.
Proof.
  intros Hstep. induction history as [|e history IH]; intros sv sv' rs Hsound HP; simpl.
  { by intros [= <- _]. }
  destruct (step_effects e sv Hsound) as (sv1 & r & He & Hsound1).
  rewrite He. simpl. destruct (run history sv1) as [[sv2 rs2]|] eqn:Hrest; [|done].
  simpl. intros [= <- _]. eapply IH; [exact Hsound1| |exact Hrest].
  eapply Hstep; [exact Hsound|exact HP|exact He].
Qed.

Lemma start_sound : sound start.
Proof. split_and!; [apply start_consistent|done|done|constructor]. Qed.

Lemma reachable_sound sv : reachable sv → sound (shared sv).
Proof.
  intros (history & rs & Hrun).
  apply (run_invariant (λ sv, sound (shared sv))) with history serving rs;
    [|apply start_sound|apply start_sound|exact Hrun].
  intros sv0 e sv1 r Hsound _ He.
  destruct (step_effects e sv0 Hsound) as (sv2 & r2 & He2 & Hsound2).
  rewrite He in He2. by injection He2 as <- _.
Qed.

(** While the cache is not empty, its array is there: the length of the
    snapshot is [len(cache.data)], and [cache.data] is not nil. *)
Lemma sound_snapshot s :
  sound s →
  length (snapshot s) = len (cache_data s) ∧
  (len (cache_data s) ≠ 0 → base (cache_data s) ≠ None).
Proof.
  intros ([Hlen Hbase] & _ & Hsame & _). rewrite Hsame. unfold snapshot, view, array.
  rewrite Hsame. rewrite length_take. destruct (base (data s)) as [a|].
  - destruct Hbase as (arr & -> & Hl). simpl. split; [lia|done].
  - split; [simpl; lia|lia].
Qed.

(** ** Timeouts taken and given back *)




(** ** The contexts of the calls to the driver *)

Lemma calls_kept e sv sv' response :
  sound (shared sv) →
  step e sv = Some (sv', response) →
  ∃ prefix ctx,
    (calls (shared sv') = calls (shared sv) ∧ next_timer (shared sv') = next_timer (shared sv)) ∨
    (calls (shared sv') = prefix ++ Driver.CallFind ctx :: calls (shared sv) ∧
     next_timer (shared sv') = S (next_timer (shared sv)) ∧
     timer_of ctx = Some (next_timer (shared sv)) ∧
     Ctx.deadline ctx = Some 10%Z ∧
     Forall as_written prefix ∧ Forall (λ c, is_find c = false) prefix).
Proof.
  intros Hsound. destruct e as [backend|backend]; simpl.
  - destruct (handler_effects backend HTTP.fresh (shared sv) Hsound)
      as (s' & r & -> & _ & _ & Hs'). simpl. intros [= <- _]. simpl.
    destruct (len (cache_data (shared sv)) =? 0).
    + destruct Hs' as [Hnext Hcalls]. eexists _, _. right. split; [exact Hcalls|].
      split_and!; [done..| |]; destruct backend; repeat constructor; done.
    + subst s'. exists [], Ctx.Background. by left.
  - destruct (tick_effects backend (refresher sv) (shared sv) Hsound)
      as (d' & s' & -> & _ & _ & Hnext & _ & Hcalls). simpl. intros [= <- _]. simpl.
    eexists _, _. right. split; [exact Hcalls|].
    split_and!; [done..| |]; destruct backend; repeat constructor; done.
Qed.

Lemma find_timers_app prefix ctx cs s :
  Forall (λ c, is_find c = false) prefix →
  calls s = prefix ++ Driver.CallFind ctx :: cs →
  find_timers s =
    from_option (λ t, [t]) [] (timer_of ctx)
      ++ omap (λ c, match c with Driver.CallFind ctx => timer_of ctx | _ => None end) cs ∧
  finds s = S (length (filter is_find cs)).
Proof.
  intros Hprefix Hcalls. unfold find_timers, finds. rewrite Hcalls. clear Hcalls.
  induction Hprefix as [|c prefix Hc _ IH].
  - simpl. split; [by destruct (timer_of ctx)|done].
  - destruct IH as [IH1 IH2]. destruct c; try done. all: simpl in *; by split.
Qed.

(** Every call the program makes to the driver is made as the source
    writes it: each [Find], and each [Close], under a context with a
    ten-second timeout, [All] always under [context.Background()]; and
    each fetch has a timer of its own, shared with no other fetch. *)
Theorem calls_as_written (sv : Server) :
  reachable sv →
  Forall as_written (calls (shared sv)) ∧
  NoDup (find_timers (shared sv)) ∧
  length (find_timers (shared sv)) = finds (shared sv).
Proof.
  intros Hreach. pose proof Hreach as (history & rs & Hrun).
  assert (Forall as_written (calls (shared sv)) ∧
          NoDup (find_timers (shared sv)) ∧
          length (find_timers (shared sv)) = finds (shared sv) ∧
          Forall (λ t, t < next_timer (shared sv)) (find_timers (shared sv)))
    as (H1 & H2 & H3 & _); [|done].
  apply (run_invariant (λ sv,
    Forall as_written (calls (shared sv)) ∧
    NoDup (find_timers (shared sv)) ∧
    length (find_timers (shared sv)) = finds (shared sv) ∧
    Forall (λ t, t < next_timer (shared sv)) (find_timers (shared sv))))
    with history serving rs; [|apply start_sound| |exact Hrun].
  - clear. intros sv e sv' r Hsound (Hfa & Hnd & Hlen & Hlt) He.
    destruct (calls_kept e sv sv' r Hsound He)
      as (prefix & ctx & [[Hcalls Hnext]|(Hcalls & Hnext & Htimer & Hdl & Hpfx & Hnf)]).
    + unfold find_timers, finds in *. rewrite Hcalls, Hnext. by split_and!.
    + destruct (find_timers_app prefix ctx _ _ Hnf Hcalls) as [Hft Hfinds].
      rewrite Htimer in Hft. simpl in Hft. fold (find_timers (shared sv)) in Hft.
      rewrite Hft, Hcalls, Hnext, Hfinds. split_and!.
      * apply Forall_app. split; [done|]. constructor; [|done].
        simpl. split; [done|]. rewrite Htimer. by eexists.
      * constructor; [|done]. intros Hin.
        rewrite Forall_forall in Hlt. specialize (Hlt _ Hin). lia.
      * simpl. f_equal. exact Hlen.
      * constructor; [lia|]. eapply Forall_impl; [exact Hlt|]. simpl. lia.
  - split_and!; [constructor|constructor|done|constructor].
Qed.

(** With [town; mill] in the cache. *)
Lemma calls_as_written_witness :
  Forall as_written (calls (shared stocked)) ∧
  NoDup (find_timers (shared stocked)) ∧
  length (find_timers (shared stocked)) = finds (shared stocked).
Proof.
  apply (calls_as_written stocked).
  exists [Tick (Driver.Cursor [Driver.Good town; Driver.Good mill])], []. by_running.
Defined.

(** ** The cache as a plain value *)

Lemma snapshot_nil s : sound s → (len (cache_data s) =? 0) = true → snapshot s = [].
Proof.
  intros Hsound Hlen%Nat.eqb_eq. destruct (sound_snapshot s Hsound) as [Hl _].
  rewrite Hlen in Hl. by apply nil_length_inv.
Qed.

Lemma snapshot_cons s :
  sound s → (len (cache_data s) =? 0) = false → ∃ l ls, snapshot s = l :: ls.
Proof.
  intros Hsound Hlen%Nat.eqb_neq. destruct (sound_snapshot s Hsound) as [Hl _].
  destruct (snapshot s) as [|l ls]; [simpl in Hl; lia|by eexists _, _].
Qed.

(** One request or tick over whole documents moves the snapshot as
    [replace_whole] says. *)
Lemma step_replace_whole p sv :
  sound (shared sv) →
  ∃ sv' response,
    step (event_of p) sv = Some (sv', response) ∧
    sound (shared sv') ∧
    snapshot (shared sv') = replace_whole (snapshot (shared sv)) p.
Proof.
  intros Hsound. pose proof Hsound as (Hok & Hfree & _).
  destruct p as [fetch|fetch]; cbn [event_of step].
  - destruct (handler_effects (brings fetch) HTTP.fresh (shared sv) Hsound)
      as (s' & r & Hrun & Hsound' & _ & Hs').
    destruct (getMapDataHandler_records (brings fetch) HTTP.fresh (shared sv) Hok Hfree)
      as (s0 & r0 & Hrun0 & _ & _ & Hcold).
    rewrite Hrun in Hrun0 |- *. injection Hrun0 as <- <-. simpl.
    eexists _, _. split; [done|]. split; [done|]. simpl.
    destruct (len (cache_data (shared sv)) =? 0) eqn:Hlen.
    + rewrite (snapshot_nil _ Hsound Hlen). specialize (Hcold (proj1 (Nat.eqb_eq _ _) Hlen)).
      destruct fetch as [ls|]; simpl in *.
      * by apply Hcold.
      * destruct Hcold as [Hh Hc]. unfold snapshot. rewrite Hh, Hc.
        apply (snapshot_nil _ Hsound Hlen).
    + subst s'. destruct (snapshot_cons _ Hsound Hlen) as (l & ls & ->). by destruct fetch.
  - destruct (tick_effects (brings fetch) (refresher sv) (shared sv) Hsound)
      as (d' & s' & Hrun & Hsound' & _).
    destruct (tick_records (brings fetch) (refresher sv) (shared sv) Hok Hfree)
      as (d0 & s0 & Hrun0 & _ & _ & Hrec).
    rewrite Hrun in Hrun0 |- *. injection Hrun0 as <- <-. simpl.
    eexists _, _. split; [done|]. split; [done|]. simpl.
    destruct fetch as [ls|]; simpl in *.
    + by apply Hrec.
    + destruct Hrec as [Hh Hc]. unfold snapshot. by rewrite Hh, Hc.
Qed.

Lemma run_replace_whole history : ∀ sv,
  sound (shared sv) →
  ∃ sv' responses,
    run (event_of <$> history) sv = Some (sv', responses) ∧
    snapshot (shared sv') = foldl replace_whole (snapshot (shared sv)) history.
Proof.
  induction history as [|p history IH]; intros sv Hsound; [by exists sv, []|].
  destruct (step_replace_whole p sv Hsound) as (sv1 & r & Hstep & Hsound1 & Hsnap).
  destruct (IH sv1 Hsound1) as (sv' & rs & Hrest & Hsnap').
  eexists _, _. rewrite fmap_cons. cbn [run]. rewrite Hstep. simpl. rewrite Hrest. simpl.
  split; [done|]. by rewrite Hsnap', Hsnap.
Qed.

(** As long as every document fetched carries all the fields of a
    record, the cache behaves as a plain value that is replaced whole:
    after any history of requests and ticks whose fetches fail at the
    call or bring such documents, the snapshot is what the last fetch
    that was made and succeeded brought, the decoding in place
    notwithstanding. *)
Theorem whole_documents_replace_whole (history : list Plain) :
  ∃ sv responses,
    run (event_of <$> history) serving = Some (sv, responses) ∧
    snapshot (shared sv) = foldl replace_whole [] history.
Proof.
  destruct (run_replace_whole history serving start_sound) as (sv & rs & Hrun & Hsnap).
  by exists sv, rs.
Qed.

(** The cache never has an array of its own: in every state the server
    gets into, [cache.data] is the very slice header [data] holds, over
    the array [cursor.All] decodes into, and the snapshot has
    [len(cache.data)] records. *)
Theorem cache_aliases_data (sv : Server) :
  reachable sv →
  cache_data (shared sv) = data (shared sv) ∧
  slice_ok (heap (shared sv)) (cache_data (shared sv)) ∧
  length (snapshot (shared sv)) = len (cache_data (shared sv)).
Proof.
  intros Hsound%reachable_sound. pose proof Hsound as (Hok & _ & Hsame & _).
  split_and!; [done|by rewrite Hsame|by apply sound_snapshot].
Qed.

(** With [town; mill] in the cache. *)
Lemma cache_aliases_data_witness :
  cache_data (shared stocked) = data (shared stocked) ∧
  slice_ok (heap (shared stocked)) (cache_data (shared stocked)) ∧
  length (snapshot (shared stocked)) = len (cache_data (shared stocked)).
Proof.
  apply (cache_aliases_data stocked).
  exists [Tick (Driver.Cursor [Driver.Good town; Driver.Good mill])], []. by_running.
Defined.

(** ** The answer to a request *)

Lemma encoded_on_return pending s : encoded (on_return pending s) = encoded s.
Proof.
  destruct (on_return_memory pending s) as (Hh & _ & Hc).
  unfold encoded, snapshot. by rewrite Hh, Hc.
Qed.

Lemma answer_of_encode f s' :
  w f = HTTP.Set_ "Content-Type" "application/json" HTTP.fresh →
  encoded s' = encoded (world f) →
  w (encode f) = answered (encoded s').
Proof.
  intros Hw ->. unfold encode, answered. rewrite Hw. by destruct (encoded (world f)).
Qed.

(** The response, from the cache as the handler leaves it: the message
    of the cold fill when that fails, the encoder's answer otherwise. *)
Lemma handler_response backend s :
  cacheMutex s = false →
  ∃ s' r,
    getMapDataHandler backend HTTP.fresh s = Some (s', r) ∧
    r = match (if len (cache_data s) =? 0 then fill_failure backend else None) with
        | Some message =>
            HTTP.Error (HTTP.Set_ "Content-Type" "application/json" HTTP.fresh)
              message HTTP.StatusInternalServerError
        | None => answered (encoded s')
        end.
Proof.
  intros Hfree. unfold getMapDataHandler, Lock, fill. rewrite Hfree. simpl.
  destruct (len (cache_data s) =? 0) eqn:Hlen.
  - unfold coldFill, WithTimeout. simpl. destruct backend as [|docs]; simpl.
    { by eexists _, _. }
    destruct (Cursor_All_spec (heap s) (data s) docs) as (h' & d & -> & _).
    destruct (forallb decodable docs); simpl; [|by eexists _, _].
    eexists _, _. split; [done|]. apply answer_of_encode; [done|].
    rewrite encoded_on_return. by match goal with
      | |- context [encode ?f] => destruct (encode_world f) as (-> & _)
      end.
  - eexists _, _. split; [done|]. apply answer_of_encode; [done|].
    rewrite encoded_on_return. by match goal with
      | |- context [encode ?f] => destruct (encode_world f) as (-> & _)
      end.
Qed.

Lemma error_answer_Error message :
  error_answer
    (HTTP.Error (HTTP.Set_ "Content-Type" "application/json" HTTP.fresh)
       message HTTP.StatusInternalServerError) message.
Proof. unfold error_answer. split_and!; by_running. Qed.

Lemma json_answer_answered text : json_answer (answered (Some text)) text.
Proof. unfold json_answer. split_and!; by_running. Qed.

(** What a request is answered with, in every state the server gets
    into.  With the cache empty and the fetch failing: status 500 and the
    message of the stage that failed.  Otherwise the cache as the handler
    leaves it goes to the encoder: status 200 with its JSON text and a
    newline, or status 500 with the encoder's message.  Every 500 goes out
    as plain text with [nosniff], the JSON content type set on line 79
    replaced. *)
Theorem request_is_answered (sv : Server) (backend : Driver.FindResult) :
  reachable sv →
  ∃ sv' r,
    step (Request backend) sv = Some (sv', Some r) ∧
    match (if len (cache_data (shared sv)) =? 0 then fill_failure backend else None) with
    | Some message => error_answer r message
    | None =>
        match encoded (shared sv') with
        | Some text => json_answer r text
        | None => error_answer r "Failed to encode map data as JSON"
        end
    end.
Proof.
  intros (_ & Hfree & _)%reachable_sound. simpl.
  destruct (handler_response backend (shared sv) Hfree) as (s' & r & -> & ->). simpl.
  eexists _, _. split; [done|]. simpl.
  destruct (if len (cache_data (shared sv)) =? 0 then fill_failure backend else None)
    as [message|]; [apply error_answer_Error|].
  destruct (encoded s') as [text|]; [apply json_answer_answered|apply error_answer_Error].
Qed.

(** A read of [town; mill], whatever the store would answer. *)
Lemma request_is_answered_witness :
  ∃ sv' r,
    step (Request Driver.FindErr) stocked = Some (sv', Some r) ∧
    match (if len (cache_data (shared stocked)) =? 0
           then fill_failure Driver.FindErr else None) with
    | Some message => error_answer r message
    | None =>
        match encoded (shared sv') with
        | Some text => json_answer r text
        | None => error_answer r "Failed to encode map data as JSON"
        end
    end.
Proof.
  apply (request_is_answered stocked Driver.FindErr).
  exists [Tick (Driver.Cursor [Driver.Good town; Driver.Good mill])], []. by_running.
Defined.

Lemma run_answers history : ∀ sv,
  sound (shared sv) →
  ∃ sv' responses,
    run history sv = Some (sv', responses) ∧
    Forall (λ r, (∃ text, json_answer r text) ∨
                 (∃ message, message ∈ failure_messages ∧ error_answer r message))
      responses.
Proof.
  induction history as [|e history IH]; intros sv Hsound; [by exists sv, []|].
  destruct (step_effects e sv Hsound) as (sv1 & r & Hstep & Hsound1).
  destruct (IH sv1 Hsound1) as (sv' & rs & Hrest & Hrs).
  simpl. rewrite Hstep. simpl. rewrite Hrest. simpl.
  eexists _, _. split; [done|]. apply Forall_app. split; [|done].
  destruct e as [backend|backend]; simpl in Hstep.
  - destruct Hsound as (_ & Hfree & _).
    destruct (handler_response backend (shared sv) Hfree) as (s' & r' & Hrun & Hr').
    rewrite Hrun in Hstep. simpl in Hstep. injection Hstep as <- <-. simpl.
    constructor; [|done]. subst r'.
    destruct (len (cache_data (shared sv)) =? 0); simpl.
    + destruct backend as [|docs]; simpl.
      * right. eexists. split; [|apply error_answer_Error]. set_solver.
      * destruct (forallb decodable docs).
        -- destruct (encoded s') as [text|].
           ++ left. eexists. apply json_answer_answered.
           ++ right. eexists. split; [|apply error_answer_Error]. set_solver.
        -- right. eexists. split; [|apply error_answer_Error]. set_solver.
    + destruct (encoded s') as [text|].
      * left. eexists. apply json_answer_answered.
      * right. eexists. split; [|apply error_answer_Error]. set_solver.
  - destruct (tick backend (refresher sv) (shared sv)) as [[d' s']|]; [|done].
    simpl in Hstep. by injection Hstep as <- <-.
Qed.

(** Nothing else ever goes out: over any history of requests and ticks,
    every response is either status 200 with the JSON content type and a
    body that ends in a newline, or status 500 in plain text with one of
    the three messages of lines 88, 94 and 105. *)
Theorem every_response_is_json_or_error (history : list Event) :
  ∃ sv responses,
    run history serving = Some (sv, responses) ∧
    Forall (λ r, (∃ text, json_answer r text) ∨
                 (∃ message, message ∈ failure_messages ∧ error_answer r message))
      responses.
Proof. apply run_answers, start_sound. Qed.

(** ** Records the encoder refuses *)

Lemma float_finite f :
  finite f = match JSON.float f with Some _ => true | None => false end.
Proof.
  unfold finite, JSON.float. destruct (Prim2SF f) as [neg|neg| |neg m e]; try done.
  by destruct (Strconv.shortest (Z.pos m) e).
Qed.

Lemma mapLocation_encodable l :
  encodable l = match JSON.mapLocation l with Some _ => true | None => false end.
Proof.
  unfold encodable, JSON.mapLocation, JSON.coordinates. rewrite !float_finite.
  by destruct (JSON.float (X (XY l))), (JSON.float (Y (XY l))).
Qed.

Lemma elements_encodable ls :
  forallb encodable ls = match JSON.elements ls with Some _ => true | None => false end.
Proof.
  induction ls as [|l ls IH]; [done|].
  cbn [forallb]. rewrite IH, mapLocation_encodable.
  destruct ls as [|l' rest].
  - simpl. by destruct (JSON.mapLocation l).
  - assert (JSON.elements (l :: l' :: rest) =
            o ← JSON.mapLocation l; os ← JSON.elements (l' :: rest);
            Some (o +:+ "," +:+ os)) as -> by done.
    destruct (JSON.mapLocation l); [|done].
    by destruct (JSON.elements (l' :: rest)).
Qed.

(** [Encode] fails exactly when a record of the cache has a coordinate
    that is NaN or infinite. *)
Lemma encoded_encodable s :
  forallb encodable (snapshot s) = match encoded s with Some _ => true | None => false end.
Proof.
  unfold encoded, JSON.Marshal. case_bool_decide as Hnil.
  - unfold snapshot, view, array. rewrite Hnil. by rewrite take_nil.
  - rewrite elements_encodable. by destruct (JSON.elements (snapshot s)).
Qed.

(** One record with a coordinate that is NaN or infinite fails every
    read: while the cache is populated and nothing writes to it, each
    request is answered with status 200 when all the records of the
    snapshot have finite coordinates, and each with status 500 when one
    has not, whatever the store would answer. *)
Theorem reads_succeed_iff_coordinates_finite (sv : Server) (events : list Event) :
  reachable sv →
  len (cache_data (shared sv)) ≠ 0 →
  forallb quiet events = true →
  ∃ sv' responses,
    run events sv = Some (sv', responses) ∧
    Forall (λ r, HTTP.status r =
                 Some (if forallb encodable (snapshot (shared sv)) then 200 else 500))
      responses.
Proof.
  intros (_ & Hfree & _)%reachable_sound Hlen Hquiet.
  destruct (quiet_run events sv Hfree Hlen Hquiet) as (sv' & rs & Hrun & _ & _ & Hrs).
  exists sv', rs. split; [done|]. eapply Forall_impl; [exact Hrs|].
  intros r ->. unfold reply.
  rewrite (answer_of_encode (entry HTTP.fresh (shared sv)) (shared sv)) by done.
  rewrite encoded_encodable.
  destruct (encoded (shared sv)) as [text|].
  - apply json_answer_answered.
  - apply (error_answer_Error "Failed to encode map data as JSON").
Qed.

(** Reads of [town; mill] around a refresh that fails at the call. *)
Lemma reads_succeed_iff_coordinates_finite_witness :
  ∃ sv' responses,
    run [Request Driver.FindErr; Tick Driver.FindErr; Request (Driver.Cursor [])] stocked
      = Some (sv', responses) ∧
    Forall (λ r, HTTP.status r = Some 200) responses.
Proof.
  apply (reads_succeed_iff_coordinates_finite stocked
           [Request Driver.FindErr; Tick Driver.FindErr; Request (Driver.Cursor [])]).
  - exists [Tick (Driver.Cursor [Driver.Good town; Driver.Good mill])], []. by_running.
  - vm_compute. lia.
  - reflexivity.
Defined.

(** ** Start-up that gets through *)

Lemma initMongoDB_works e :
  (initMongoDB e).2 = None ↔ initialises e.
Proof.
  unfold initMongoDB, initialises.
  destruct (godotenv_Load e) as [err|]; simpl.
  { split; [done|]. by intros [[=] _]. }
  destruct (String.eqb_spec (MONGO_URI e) "") as [Huri|Huri]; simpl.
  { split; [done|]. by intros (_ & H & _). }
  destruct (mongo_Connect e) as [err|]; simpl.
  { split; [done|]. by intros (_ & _ & [=] & _). }
  destruct (client_Ping e) as [err|]; simpl.
  { split; [done|]. by intros (_ & _ & _ & [=]). }
  done.
Qed.

(** The process serves exactly when every step of [initMongoDB] works
    and the listener can be bound: the environment file loads,
    [MONGO_URI] is not empty, the store connects and answers the ping.
    The port is then 8080, and the only line printed is the one that
    reports the connection.  The refresher is started, with a period of 20
    seconds, exactly when [initMongoDB] works, before the listener is
    bound; and however [main] ends, the exit status is 0. *)
Theorem serves_exactly_when_start_up_works (e : Env) :
  (is_Some (listening (main e)) ↔ initialises e ∧ ListenAndServe e = None) ∧
  (is_Some (refreshing (main e)) ↔ initialises e) ∧
  (is_Some (listening (main e)) →
   listening (main e) = Some 8080%Z ∧ refreshing (main e) = Some 20%Z ∧
   printed (main e) = ["Connected to MongoDB!"] ∧ exit_status (main e) = None) ∧
  (exit_status (main e) = None ↔ is_Some (listening (main e))) ∧
  (∀ code, exit_status (main e) = Some code → code = 0%Z).
Proof.
  pose proof (initMongoDB_works e) as Hinit. unfold main.
  assert (initialises e → (initMongoDB e).1 = ["Connected to MongoDB!"]) as Hout.
  { unfold initMongoDB, initialises. intros (-> & Huri & -> & ->).
    by destruct (String.eqb_spec (MONGO_URI e) ""). }
  destruct (initMongoDB e) as [out [err|]]; simpl in *.
  - assert (¬ initialises e) as Hno by (by intros H%Hinit).
    split_and!.
    + split; [by intros [? [=]]|by intros [H%Hno _]].
    + split; [by intros [? [=]]|by intros H%Hno].
    + by intros [? [=]].
    + split; [done|by intros [? [=]]].
    + by intros code [= <-].
  - assert (initialises e) as Hyes by by apply Hinit.
    destruct (ListenAndServe e) as [err|]; simpl.
    + split_and!.
      * split; [by intros [? [=]]|by intros [_ [=]]].
      * split; [done|by eexists].
      * by intros [? [=]].
      * split; [done|by intros [? [=]]].
      * by intros code [= <-].
    + rewrite (Hout Hyes). split_and!.
      * split; [done|by eexists].
      * split; [done|by eexists].
      * done.
      * split; [by eexists|done].
      * by intros code [=].
Qed.

(** ** What is printed *)






(** ** A cold start under load *)

(** Requests that find the cache populated change nothing at all, make
    no call to the store, and all get the encoder's answer for the cache
    as it is. *)
Lemma requests_from_cache backends : ∀ sv,
  cacheMutex (shared sv) = false →
  len (cache_data (shared sv)) ≠ 0 →
  run (Request <$> backends) sv
    = Some (sv, replicate (length backends) (answered (encoded (shared sv)))).
Proof.
  induction backends as [|backend backends IH]; intros sv Hfree Hlen; [done|].
  destruct (handler_response backend (shared sv) Hfree) as (s' & r & Hrun & Hr).
  destruct (getMapDataHandler_spec backend HTTP.fresh (shared sv) Hfree)
    as (s2 & r2 & Hrun2 & _ & _ & Hs2).
  rewrite Hrun in Hrun2. injection Hrun2 as <- <-.
  rewrite (proj2 (Nat.eqb_neq _ _) Hlen) in Hr, Hs2. destruct Hs2 as [-> _].
  cbn [fmap list_fmap run step]. rewrite Hrun. simpl.
  assert ({| shared := shared sv; refresher := refresher sv |} = sv) as -> by by destruct sv.
  change (list_fmap _ _ Request backends) with (Request <$> backends).
  rewrite (IH sv Hfree Hlen). simpl. by rewrite Hr.
Qed.

(** Cold start: when requests queue up on the mutex while the cache is
    empty, the first one in fetches, and if its fetch brings records the
    others are served from the cache it filled: one fetch for all of them,
    and one and the same response for each, whatever the store would have
    answered the others. *)
Theorem first_read_fetches_for_all
    (sv : Server) (ls : list MapLocation) (backends : list Driver.FindResult) :
  reachable sv →
  len (cache_data (shared sv)) = 0 →
  ls ≠ [] →
  ∃ sv' r,
    run (Request (Driver.Cursor (Driver.Good <$> ls)) :: (Request <$> backends)) sv
      = Some (sv', replicate (S (length backends)) r) ∧
    finds (shared sv') = S (finds (shared sv)) ∧
    snapshot (shared sv') = ls.
Proof.
  intros Hsound%reachable_sound Hlen Hls. pose proof Hsound as (Hok & Hfree & _).
  set (backend := Driver.Cursor (Driver.Good <$> ls)).
  destruct (handler_response backend (shared sv) Hfree) as (s1 & r & Hrun & Hr).
  destruct (getMapDataHandler_spec backend HTTP.fresh (shared sv) Hfree)
    as (s2 & r2 & Hrun2 & Hfree1 & Hfinds & Hs2).
  rewrite Hrun in Hrun2. injection Hrun2 as <- <-.
  destruct (getMapDataHandler_records backend HTTP.fresh (shared sv) Hok Hfree)
    as (s3 & r3 & Hrun3 & _ & _ & Hrec).
  rewrite Hrun in Hrun3. injection Hrun3 as <- <-.
  destruct (Hrec Hlen) as [Hsnap _]. specialize (Hsnap ls eq_refl). clear Hrec.
  subst backend. simpl in Hr, Hs2.
  rewrite Hlen in Hr, Hs2, Hfinds. simpl in Hr, Hs2, Hfinds.
  rewrite decodable_Good in Hr, Hs2.
  rewrite length_fmap in Hs2.
  assert (len (cache_data s1) ≠ 0) as Hlen1.
  { rewrite Hs2. by destruct ls. }
  exists {| shared := s1; refresher := refresher sv |}, r.
  cbn [run step]. rewrite Hrun. simpl.
  change (list_fmap _ _ Request backends) with (Request <$> backends).
  rewrite (requests_from_cache backends {| shared := s1; refresher := refresher sv |}
             Hfree1 Hlen1). simpl.
  split_and!; [by rewrite Hr|lia|done].
Qed.

(** Three requests at start-up; the store would have failed the second. *)
Lemma first_read_fetches_for_all_witness :
  ∃ sv' r,
    run (Request (Driver.Cursor (Driver.Good <$> [town; mill]))
           :: (Request <$> [Driver.FindErr; Driver.Cursor []])) serving
      = Some (sv', replicate 3 r) ∧
    finds (shared sv') = 1 ∧
    snapshot (shared sv') = [town; mill].
Proof.
  apply (first_read_fetches_for_all serving [town; mill] [Driver.FindErr; Driver.Cursor []]).
  - exists [], []. reflexivity.
  - reflexivity.
  - discriminate.
Defined.

(** ** What decoding in place leaves in the cache *)

Lemma view_length h s : slice_ok h s → length (view h s) = len s.
Proof.
  intros [Hlen Hbase]. unfold view, array. rewrite length_take.
  destruct (base s) as [a|]; [|simpl; lia].
  destruct Hbase as (arr & -> & Hl). simpl. lia.
Qed.

(** A write at or past the end of a slice, through whatever slice it is
    made, does not touch the elements of that slice. *)
Lemma store_beyond h cur i x s :
  slice_ok h s → len s ≤ i →
  view (store h cur i x) s = view h s ∧ slice_ok (store h cur i x) s.
Proof.
  intros [Hlen Hbase] Hi. unfold store. destruct (base cur) as [a|]; [|done].
  unfold view, array, slice_ok. destruct (base s) as [a0|]; [|done].
  destruct Hbase as (arr & Ha0 & Hl).
  destruct (decide (a0 = a)) as [->|Hne].
  - rewrite list_lookup_alter_eq, Ha0. simpl. split; [by rewrite take_insert_ge|].
    split; [done|]. eexists. split; [done|]. by rewrite length_insert.
  - rewrite list_lookup_alter_ne by done. rewrite Ha0. split; [done|].
    split; [done|]. by eexists.
Qed.

Lemma append_beyond h cur x s :
  slice_ok h s → len s ≤ len cur →
  view (append zeroLocation h cur x).1 s = view h s ∧
  slice_ok (append zeroLocation h cur x).1 s.
Proof.
  intros Hok Hi. unfold append. destruct (len cur <? cap cur); simpl.
  { by apply store_beyond. }
  destruct Hok as [Hlen Hbase]. unfold view, array, slice_ok.
  destruct (base s) as [a0|]; [|done]. destruct Hbase as (arr & Ha0 & Hl).
  rewrite lookup_app_l by by eapply lookup_lt_Some. rewrite Ha0.
  split; [done|]. split; [done|]. by eexists.
Qed.

(** Once [addFromBatch] is past the end of a slice, nothing it does
    shows in that slice. *)
Lemma addFromBatch_beyond docs s : ∀ h cur index,
  slice_ok h s → len s ≤ index →
  ∃ h' cur' index' err,
    Driver.addFromBatch h cur index docs = (h', cur', index', err) ∧
    view h' s = view h s ∧ slice_ok h' s.
Proof.
  induction docs as [|doc docs IH]; intros h cur i Hok Hi; simpl.
  { by eexists _, _, _, _. }
  assert (∃ h1 cur1,
    (if len cur =? i
     then let '(h', s') := append zeroLocation h cur zeroLocation in
          (h', reslice s' (cap s'))
     else (h, cur)) = (h1, cur1) ∧
    view h1 s = view h s ∧ slice_ok h1 s) as (h1 & cur1 & -> & Hview1 & Hok1).
  { destruct (len cur =? i) eqn:Hfull; [|by eexists _, _].
    apply Nat.eqb_eq in Hfull.
    destruct (append_beyond h cur zeroLocation s Hok ltac:(lia)) as [Hview Hok'].
    destruct (append zeroLocation h cur zeroLocation) as [h1 s1]. by eexists _, _. }
  destruct (Driver.Unmarshal doc _) as [l err].
  destruct (store_beyond h1 cur1 i l s Hok1 Hi) as [Hview2 Hok2].
  destruct err.
  - eexists _, _, _, _. split; [done|]. split; [congruence|done].
  - destruct (IH (store h1 cur1 i l) cur1 (S i) Hok2 ltac:(lia))
      as (h' & cur' & i' & err & -> & Hview' & Hok').
    eexists _, _, _, _. split; [done|]. split; [congruence|done].
Qed.

(** [addFromBatch] from element [index] of a sound slice, whatever the
    documents: the elements of that slice from [index] on are then what
    [overwrite] makes of them, and those before are as they were.  While
    the documents fit into the slice, the slice is the one it started
    with. *)
Lemma addFromBatch_overwrites docs s : ∀ h index,
  slice_ok h s → index ≤ len s →
  ∃ h' cur' index' err,
    Driver.addFromBatch h s index docs = (h', cur', index', err) ∧
    slice_ok h' s ∧
    view h' s = take index (view h s) ++ overwrite docs (drop index (view h s)) ∧
    (err = false → index + length docs ≤ len s →
     cur' = s ∧ index' = index + length docs).
Proof.
  induction docs as [|doc docs IH]; intros h i Hok Hi.
  { exists h, s, i, false. simpl. rewrite take_drop, Nat.add_0_r. by split_and!. }
  pose proof (view_length h s Hok) as Hlen.
  destruct (decide (i = len s)) as [->|Hne].
  - destruct (addFromBatch_beyond (doc :: docs) s h s (len s) Hok ltac:(lia))
      as (h' & cur' & i' & err & Hrun & Hview & Hok').
    exists h', cur', i', err. split; [done|]. split; [done|].
    rewrite Hview, drop_ge, take_ge by lia. split; [by rewrite app_nil_r|].
    simpl. lia.
  - assert (i < len s) as Hlt by lia.
    destruct (lookup_lt_is_Some_2 (view h s) i ltac:(lia)) as [o Ho].
    assert (array h s !! i = Some o) as Harr.
    { unfold view in Ho. by rewrite lookup_take_lt in Ho by done. }
    rewrite (drop_S _ o i) by done.
    cbn [Driver.addFromBatch overwrite].
    rewrite (proj2 (Nat.eqb_neq _ _)) by lia. rewrite Harr.
    change (default zeroLocation (Some o)) with o.
    destruct (Driver.Unmarshal doc o) as [l err].
    pose proof Hok as [Hcap _].
    destruct (store_spec h s i l Hok ltac:(lia)) as (_ & Hok1 & Harr1).
    assert (view (store h s i l) s = <[i := l]> (view h s)) as Hview1.
    { unfold view. by rewrite Harr1, take_insert_lt. }
    destruct err.
    + exists (store h s i l), s, i, true. split; [done|]. split; [done|].
      split; [|done]. rewrite Hview1. by apply insert_take_drop; lia.
    + destruct (IH (store h s i l) (S i) Hok1 ltac:(lia))
        as (h' & cur' & i' & err & -> & Hok' & Hview' & Hfit).
      exists h', cur', i', err. split; [done|]. split; [done|]. split.
      * rewrite Hview', Hview1.
        rewrite (take_S_r _ i l) by (apply list_lookup_insert_eq; lia).
        rewrite take_insert_ge by done. rewrite drop_insert_lt by lia.
        by rewrite <- (assoc_L (++)).
      * intros Herr Hroom. simpl in Hroom.
        destruct (Hfit Herr ltac:(lia)) as [-> ->]. split; [done|]. simpl. lia.
Qed.

(** Documents that all decode make of the records they reach what each
    makes of its own. *)
Lemma overwrite_decodable docs : ∀ old,
  forallb decodable docs = true →
  length docs ≤ length old →
  take (length docs) (overwrite docs old)
    = zip_with (λ doc o, (Driver.Unmarshal doc o).1) docs old.
Proof.
  induction docs as [|doc docs IH]; intros old Hall Hlen; [done|].
  destruct old as [|o old]; [simpl in Hlen; lia|].
  cbn [forallb] in Hall. apply andb_prop in Hall as [Hdoc Hall].
  cbn [overwrite zip_with length].
  pose proof (Unmarshal_err doc o) as Herr. rewrite Hdoc in Herr.
  destruct (Driver.Unmarshal doc o) as [l err]. simpl in Herr. subst err.
  simpl. f_equal. apply IH; [done|]. simpl in Hlen. lia.
Qed.

Lemma overwrite_length docs : ∀ old, length (overwrite docs old) = length old.
Proof.
  induction docs as [|doc docs IH]; intros [|o old]; simpl; try done.
  destruct (Driver.Unmarshal doc o) as [l []]; simpl; by rewrite ?IH.
Qed.

(** What a refresh that fails while decoding leaves behind, in general.
    The documents are decoded over the records of the cache, one document
    per record from the first on and each field by field, up to the
    document that fails: the snapshot read afterwards is what [overwrite]
    makes of the old one.  Records that documents were decoded into hold
    the fields these documents carry and keep their old values in the
    others; the record the failing document was headed for holds what
    that document got to write; the rest, and the length, are as they
    were. *)
Theorem failed_decode_overwrites_prefix (sv : Server) (docs : list Driver.Doc) :
  reachable sv →
  forallb decodable docs = false →
  ∃ sv',
    step (Tick (Driver.Cursor docs)) sv = Some (sv', None) ∧
    snapshot (shared sv') = overwrite docs (snapshot (shared sv)) ∧
    length (snapshot (shared sv')) = length (snapshot (shared sv)).
Proof.
  intros Hsound%reachable_sound Hfails. pose proof Hsound as (Hok & Hfree & Hsame & _).
  destruct (addFromBatch_overwrites docs (data (shared sv)) (heap (shared sv)) 0 Hok
              ltac:(lia)) as (h' & cur' & i' & err & Hbatch & Hok' & Hview & _).
  destruct (addFromBatch_undecodable docs (heap (shared sv)) (data (shared sv)) 0 Hfails)
    as (h0 & cur0 & i0 & Hbatch0).
  rewrite Hbatch in Hbatch0. injection Hbatch0 as <- <- <- ->.
  simpl. unfold tick, Lock, WithTimeout. rewrite Hfree. simpl.
  unfold Driver.Cursor_All. rewrite Hbatch. simpl.
  eexists. split; [done|]. simpl.
  assert (snapshot (shared sv) = view (heap (shared sv)) (data (shared sv))) as Hold.
  { unfold snapshot. by rewrite Hsame. }
  assert (∀ s', heap s' = h' → cache_data s' = data (shared sv) →
                snapshot s' = overwrite docs (snapshot (shared sv))) as Hnew.
  { intros s' Hh Hc. rewrite Hold. unfold snapshot. by rewrite Hh, Hc, Hview. }
  match goal with
  | |- snapshot ?s' = _ ∧ _ => rewrite (Hnew s') by (open_state; done)
  end.
  split; [done|]. apply overwrite_length.
Qed.

(** With [town; mill] in the cache, record 1 comes back relabelled, and
    the second document fails at its coordinates, after its id and its
    label. *)
Lemma failed_decode_overwrites_prefix_witness :
  ∃ sv',
    step (Tick (Driver.Cursor
                  [Driver.Good city;
                   Driver.Document [Driver.Id (Some "9"); Driver.Loc (Some "Badlands");
                                    Driver.Xy None]])) stocked
      = Some (sv', None) ∧
    snapshot (shared sv') =
      [city; {| ID := "9"; Location := "Badlands"; XY := {| X := 3%float; Y := 4%float |} |}] ∧
    length (snapshot (shared sv')) = 2.
Proof.
  apply (failed_decode_overwrites_prefix stocked
           [Driver.Good city;
            Driver.Document [Driver.Id (Some "9"); Driver.Loc (Some "Badlands");
                             Driver.Xy None]]).
  - exists [Tick (Driver.Cursor [Driver.Good town; Driver.Good mill])], []. by_running.
  - reflexivity.
Defined.

(** A refresh that succeeds replaces the records only as far as its
    documents go.  When every document decodes and there are no more of
    them than the cache has records, each is decoded over the old record
    in its place: the snapshot read afterwards has as many records as
    there are documents, and each holds the fields its document carries
    and keeps the old record's values in the fields it does not carry. *)
Theorem absent_fields_keep_old_values (sv : Server) (docs : list Driver.Doc) :
  reachable sv →
  forallb decodable docs = true →
  length docs ≤ len (cache_data (shared sv)) →
  ∃ sv',
    step (Tick (Driver.Cursor docs)) sv = Some (sv', None) ∧
    snapshot (shared sv') =
      zip_with (λ doc o, (Driver.Unmarshal doc o).1) docs (snapshot (shared sv)).
Proof.
  intros Hsound%reachable_sound Hall Hfit. pose proof Hsound as (Hok & Hfree & Hsame & _).
  rewrite Hsame in Hfit.
  destruct (addFromBatch_overwrites docs (data (shared sv)) (heap (shared sv)) 0 Hok
              ltac:(lia)) as (h' & cur' & i' & err & Hbatch & Hok' & Hview & Hcur).
  destruct (addFromBatch_all_decodable docs (heap (shared sv)) (data (shared sv)) 0 Hall)
    as (h0 & cur0 & Hbatch0).
  rewrite Hbatch in Hbatch0. injection Hbatch0 as <- <- -> ->.
  destruct (Hcur eq_refl Hfit) as [-> _].
  simpl. unfold tick, Lock, WithTimeout. rewrite Hfree. simpl.
  unfold Driver.Cursor_All. rewrite Hbatch. simpl.
  eexists. split; [done|]. simpl.
  assert (snapshot (shared sv) = view (heap (shared sv)) (data (shared sv))) as Hold.
  { unfold snapshot. by rewrite Hsame. }
  pose proof (view_length _ _ Hok) as Hlen.
  assert (∀ s', heap s' = h' → cache_data s' = reslice (data (shared sv)) (length docs) →
                snapshot s' =
                zip_with (λ doc o, (Driver.Unmarshal doc o).1) docs (snapshot (shared sv)))
    as Hnew.
  { intros s' Hh Hc. rewrite Hold, <- overwrite_decodable by (done || lia).
    change (view h' (data (shared sv))
            = overwrite docs (view (heap (shared sv)) (data (shared sv)))) in Hview.
    unfold snapshot. rewrite Hh, Hc, <- Hview.
    unfold view, array. simpl. by rewrite take_take, Nat.min_l by done. }
  match goal with
  | |- snapshot ?s' = _ => by rewrite (Hnew s') by (open_state; done)
  end.
Qed.

(** With [town; mill] in the cache, the collection comes back as one
    document that carries nothing but an id. *)
Lemma absent_fields_keep_old_values_witness :
  ∃ sv',
    step (Tick (Driver.Cursor [Driver.Document [Driver.Id (Some "7")]])) stocked
      = Some (sv', None) ∧
    snapshot (shared sv') =
      [{| ID := "7"; Location := "Town"; XY := {| X := 1.5%float; Y := 2.5%float |} |}].
Proof.
  apply (absent_fields_keep_old_values stocked [Driver.Document [Driver.Id (Some "7")]]).
  - exists [Tick (Driver.Cursor [Driver.Good town; Driver.Good mill])], []. by_running.
  - reflexivity.
  - vm_compute. lia.
Defined.

(** ** The program's calls to [Close] *)

Lemma filter_cons_bool {A} (p : A → bool) (x : A) (l : list A) :
  filter p (x :: l) = if p x then x :: filter p l else filter p l.
Proof. rewrite filter_cons. by destruct (p x). Qed.

Lemma run_cursors history : ∀ sv,
  sound (shared sv) →
  ∃ sv' responses,
    run history sv = Some (sv', responses) ∧
    length (filter is_defer_close (refresher sv'))
      = length (filter is_defer_close (refresher sv)) + length (filter opens history) ∧
    cursors (shared sv') + closes (shared sv)
      = closes (shared sv') + cursors (shared sv) + length (filter opens history).
Proof.
  induction history as [|e history IH]; intros sv Hsound.
  { exists sv, []. split; [done|]. simpl. lia. }
  destruct e as [backend|backend]; simpl.
  - destruct (handler_effects backend HTTP.fresh (shared sv) Hsound)
      as (s' & r & -> & Hsound' & _ & Hs'). simpl.
    destruct (IH {| shared := s'; refresher := refresher sv |} Hsound')
      as (sv' & rs & -> & Hpending & Hcount). simpl in *.
    eexists _, _. split; [done|]. split; [done|].
    assert (cursors s' + closes (shared sv) = closes s' + cursors (shared sv)) as Hstep.
    { destruct (len (cache_data (shared sv)) =? 0); [|subst s'; lia].
      destruct Hs' as [_ Hcalls]. unfold cursors, closes. rewrite Hcalls.
      destruct backend; cbn [app]; rewrite !filter_cons_bool; simpl; lia. }
    rewrite filter_cons_bool. simpl. lia.
  - destruct (tick_effects backend (refresher sv) (shared sv) Hsound)
      as (d' & s' & -> & Hsound' & _ & _ & Hd' & Hcalls). simpl.
    destruct (IH {| shared := s'; refresher := d' |} Hsound')
      as (sv' & rs & -> & Hpending & Hcount). simpl in *.
    eexists _, _. split; [done|].
    assert (length (filter is_defer_close d')
            = length (filter is_defer_close (refresher sv)) + (if opens (Tick backend) then 1 else 0)
            ∧ cursors s' = cursors (shared sv) + (if opens (Tick backend) then 1 else 0)
            ∧ closes s' = closes (shared sv)) as (Hd & Hc & Hcl).
    { unfold cursors, closes. rewrite Hd', Hcalls.
      destruct backend; cbn [app]; rewrite !filter_cons_bool; simpl; lia. }
    assert (length (filter opens (Tick backend :: history))
            = (if opens (Tick backend) then 1 else 0) + length (filter opens history)) as ->.
    { rewrite filter_cons_bool. by destruct backend. }
    lia.
Qed.

(** The handler's deferred [cursor.Close] runs at every return, once for
    every cursor the handler got; the refresher's never runs.  After any
    history the program has called [Close] on all the cursors it got but
    those of the refresher, one for every tick on which [Find] worked, and
    for each of these a [Close] sits among the calls [updateCacheAsync]
    has put off.  ([All] closes a cursor by itself when it returns, so
    these are calls that never run, not cursors left open.) *)
Theorem refresher_never_runs_its_close (history : list Event) :
  ∃ sv responses,
    run history serving = Some (sv, responses) ∧
    cursors (shared sv) = closes (shared sv) + length (filter opens history) ∧
    length (filter is_defer_close (refresher sv)) = length (filter opens history).
Proof.
  destruct (run_cursors history serving start_sound) as (sv & rs & Hrun & Hpending & Hcount).
  exists sv, rs. split; [done|]. split; [|done].
  change (cursors (shared serving)) with 0 in Hcount.
  change (closes (shared serving)) with 0 in Hcount. lia.
Qed.
